(** * UofTHacks: background matcher and motion/collision loop

    A shallow embedding of
      - [backgroundMatcher.ts]  ([matchBackground], [keywordMatch]) and
      - [mainGame/MainGame.tsx] ([checkCollision], [gameLoop], [onClose]).

    JavaScript strings are modelled as [string]s of code units below 256
    (Latin-1); numbers that the game handles are integers (pixel positions,
    the step 5, the nudge 10) and are modelled in [Z]; scores are [nat].
    The tables of [backgroundConfig.ts] ([backgrounds], [defaultBackground])
    and of [gameConfig.ts] ([staticSprites], [SPRITE_SIZE]) are parameters
    of the development.  Console output is not modelled. *)

From Stdlib Require Import ZArith List String Ascii Bool Lia Arith.
Import ListNotations.

Local Open Scope string_scope.
Local Open Scope nat_scope.
Set Warnings "-register-all,-notation-for-abbreviation".

(** ** JavaScript string primitives *)

Module JsString.

(** [\s] of a regular expression and the characters stripped by
    [String.prototype.trim]: TAB, LF, VT, FF, CR, SPACE and NBSP. *)
Definition isWhiteSpace (c : ascii) : bool :=
  let n := nat_of_ascii c in
  ((9 <=? n) && (n <=? 13)) || (n =? 32) || (n =? 160).

(** Lower-casing of one code unit: [A-Z] and the Latin-1 capitals
    U+00C0..U+00DE (without the multiplication sign U+00D7). *)
Definition lowerChar (c : ascii) : ascii :=
  let n := nat_of_ascii c in
  if ((65 <=? n) && (n <=? 90))
     || ((192 <=? n) && (n <=? 222) && negb (n =? 215))
  then ascii_of_nat (n + 32) else c.

Fixpoint toLowerCase (s : string) : string :=
  match s with
  | EmptyString => EmptyString
  | String c r => String (lowerChar c) (toLowerCase r)
  end.

(** [s.includes(sub)] *)
Fixpoint includes (s sub : string) : bool :=
  prefix sub s ||
  match s with
  | EmptyString => false
  | String _ r => includes r sub
  end.

Fixpoint trimStart (s : string) : string :=
  match s with
  | EmptyString => EmptyString
  | String c r => if isWhiteSpace c then trimStart r else s
  end.

Fixpoint rev (s : string) : string :=
  match s with
  | EmptyString => EmptyString
  | String c r => rev r ++ String c EmptyString
  end.

(** [s.trim()] *)
Definition trim (s : string) : string := rev (trimStart (rev (trimStart s))).

(** [s.split(/\s+/)].  [inGap] tells that the previous character was
    white space, so that a run of white space separates only once.  The
    result is never empty: the empty string splits into [[""]], and a
    leading or trailing run of white space yields an empty first or last
    word. *)
Fixpoint splitGo (inGap : bool) (s : string) : list string :=
  match s with
  | EmptyString => [EmptyString]
  | String c r =>
      if isWhiteSpace c then
        if inGap then splitGo true r else EmptyString :: splitGo true r
      else
        match splitGo false r with
        | w :: ws => String c w :: ws
        | [] => [String c EmptyString]
        end
  end.

Definition splitWs (s : string) : list string := splitGo false s.

(** A string made of white space only (the empty string included). *)
Fixpoint isBlank (s : string) : bool :=
  match s with
  | EmptyString => true
  | String c r => isWhiteSpace c && isBlank r
  end.

(** Truthiness of a value that is [null]/[undefined] or a string, as
    tested by [if (v)], [!v] and [v && ...]: the empty string is falsy. *)
Definition truthy (v : option string) : bool :=
  match v with
  | None => false
  | Some s => negb (s =? "")%string
  end.

End JsString.

(** ** backgroundMatcher.ts *)

Module Matcher.
Import JsString.

(** [BackgroundImage] of backgroundConfig.ts. *)
Record BackgroundImage : Type := {
  id : string;
  filename : string;
  tags : list string
}.

(** *** keywordMatch: the scoring loops *)

(** Body of [for (const word of words)] for one tag. *)
Definition wordStep (tagLower : string) (score : nat) (word : string) : nat :=
  if (word =? tagLower)%string then score + 10
  else if (3 <? String.length word) && includes tagLower word then score + 3
  else if (3 <? String.length tagLower) && includes word tagLower then score + 3
  else score.

(** Body of [for (const tag of bg.tags)]. *)
Definition tagStep (inputLower : string) (words : list string)
    (score : nat) (tag : string) : nat :=
  let tagLower := toLowerCase tag in
  let score := fold_left (wordStep tagLower) words score in
  if includes inputLower tagLower && (3 <? String.length tagLower)
  then score + 5 else score.

(** The value of [score] when the loop over the tags of [bg] is left. *)
Definition scoreOf (inputLower : string) (words : list string)
    (bg : BackgroundImage) : nat :=
  fold_left (tagStep inputLower words) (tags bg) 0.

(** Body of [for (const bg of backgrounds)] on the pair
    [(bestMatch, bestScore)]. *)
Definition bgStep (inputLower : string) (words : list string)
    (best : BackgroundImage * nat) (bg : BackgroundImage)
    : BackgroundImage * nat :=
  let score := scoreOf inputLower words bg in
  if snd best <? score then (bg, score) else best.

(** The score [keywordMatch] computes for [bg] on [userInput]. *)
Definition score (userInput : string) (bg : BackgroundImage) : nat :=
  let inputLower := toLowerCase userInput in
  scoreOf inputLower (splitWs inputLower) bg.

(** *** The reference score, following the words of the specification *)

(** Per tag: +10 if any input word equals the tag; +3 if an input word
    longer than 3 is a substring of the tag or the tag, longer than 3, is a
    substring of an input word; +5 if the tag, longer than 3, is a substring
    of the lower-cased input; the three rules add up. *)
Definition specTagScore (inputLower : string) (words : list string)
    (tag : string) : nat :=
  (if existsb (fun w => (w =? tag)%string) words then 10 else 0)
  + (if existsb (fun w =>
          ((3 <? String.length w) && includes tag w)
          || ((3 <? String.length tag) && includes w tag)) words
     then 3 else 0)
  + (if (3 <? String.length tag) && includes inputLower tag then 5 else 0).

Definition specScore (userInput : string) (bg : BackgroundImage) : nat :=
  let inputLower := toLowerCase userInput in
  list_sum (map (specTagScore inputLower (splitWs inputLower)) (tags bg)).

(** *** What the loops add up to, tag by tag and word by word *)

Definition wordPoints (tagLower word : string) : nat :=
  if (word =? tagLower)%string then 10
  else if (3 <? String.length word) && includes tagLower word then 3
  else if (3 <? String.length tagLower) && includes word tagLower then 3
  else 0.

Definition phrasePoints (inputLower tagLower : string) : nat :=
  if includes inputLower tagLower && (3 <? String.length tagLower)
  then 5 else 0.

Definition tagPoints (inputLower : string) (words : list string)
    (tag : string) : nat :=
  list_sum (map (wordPoints (toLowerCase tag)) words)
  + phrasePoints inputLower (toLowerCase tag).

(** *** The responses of the completion service *)

(** A parsed JSON document.  The value of a number is never read. *)
Inductive JSON : Type :=
| JNull
| JBool (b : bool)
| JNum (n : Z)
| JStr (s : string)
| JArr (items : list JSON)
| JObj (fields : list (string * JSON)).

(** A JavaScript value met while reading the response: [None] is
    [undefined]. *)
Definition value : Type := option JSON.

Inductive exn : Type :=
| NetworkError            (* fetch rejected *)
| ApiError (status : nat) (* thrown on [!response.ok] *)
| SyntaxError             (* response.json() rejected *)
| TypeError.              (* property read or call on a wrong value *)

(** What [await fetch(...)] delivers: a rejection or a response with its
    status and what [await response.json()] delivers. *)
Record Response : Type := {
  status : nat;
  json : exn + JSON
}.

Definition ok (r : Response) : bool := (200 <=? status r) && (status r <=? 299).

Fixpoint lookup (k : string) (fields : list (string * JSON)) : value :=
  match fields with
  | [] => None
  | (k', v) :: rest => if (k =? k')%string then Some v else lookup k rest
  end.

(** Own property [k] of a JSON value other than [null], for the keys read by
    [matchBackground]: "choices", "0", "message", "content", "trim". *)
Definition property (v : JSON) (k : string) : value :=
  match v with
  | JObj fields => lookup k fields
  | JArr items => if (k =? "0")%string then hd_error items else None
  | JStr (String c _) =>
      if (k =? "0")%string then Some (JStr (String c EmptyString)) else None
  | _ => None
  end.

(** *** Effects of an async function body: a trace and an exception *)

Inductive Event : Type :=
| Fetch (url : string).   (* one request sent to the completion service *)

Definition M (A : Type) : Type := list Event * (exn + A).

Definition ret {A} (a : A) : M A := ([], inr a).
Definition throw {A} (e : exn) : M A := ([], inl e).

Definition bind {A B} (m : M A) (f : A -> M B) : M B :=
  match m with
  | (t, inl e) => (t, inl e)
  | (t, inr a) => let (t', r) := f a in ((t ++ t')%list, r)
  end.

(** [try { m } catch (error) { h error }] *)
Definition tryCatch {A} (m : M A) (h : exn -> M A) : M A :=
  match m with
  | (t, inl e) => let (t', r) := h e in ((t ++ t')%list, r)
  | (t, inr a) => (t, inr a)
  end.

(** [await p] for a promise that settles as [r]. *)
Definition await {A} (r : exn + A) : M A := ([], r).

Notation "x <- m ;; k" := (bind m (fun x => k))
  (at level 61, m at next level, right associativity).

(** How the promise returned by an async function settles. *)
Inductive Settled (A : Type) : Type :=
| Resolved (a : A)
| Rejected (e : exn).
Arguments Resolved {A} a.
Arguments Rejected {A} e.

Definition settle {A} (m : M A) : list Event * Settled A :=
  match m with
  | (t, inl e) => (t, Rejected e)
  | (t, inr a) => (t, Resolved a)
  end.

(** [v.k] and [v[0]]: reading a property of [undefined] or [null] throws. *)
Definition member (v : value) (k : string) : M value :=
  match v with
  | None | Some JNull => throw TypeError
  | Some j => ret (property j k)
  end.

(** [v?.k] *)
Definition optMember (v : value) (k : string) : value :=
  match v with
  | None | Some JNull => None
  | Some j => property j k
  end.

(** [v?.trim()]: only a string has a [trim] that can be called. *)
Definition optTrim (v : value) : M (option string) :=
  match v with
  | None | Some JNull => ret None
  | Some (JStr s) => ret (Some (trim s))
  | Some _ => throw TypeError
  end.

(** [data.choices[0]?.message?.content?.trim()] *)
Definition matchedIdOf (data : JSON) : M (option string) :=
  choices <- member (Some data) "choices" ;;
  first <- member choices "0" ;;
  optTrim (optMember (optMember first "message") "content").

Definition endpoint : string := "https://api.openai.com/v1/chat/completions".

Section Catalog.

(** [backgrounds] and [defaultBackground] of backgroundConfig.ts, and
    [import.meta.env.VITE_OPENAI_API_KEY]. *)
Variable backgrounds : list BackgroundImage.
Variable defaultBackground : BackgroundImage.
Variable OPENAI_API_KEY : option string.

Definition keywordMatch (userInput : string) : BackgroundImage :=
  let inputLower := toLowerCase userInput in
  let words := splitWs inputLower in
  fst (fold_left (bgStep inputLower words) backgrounds (defaultBackground, 0)).

(** [fetch(...)]: the request is sent, then the promise settles as the
    network decides. *)
Definition fetch (net : exn + Response) : M Response :=
  ([Fetch endpoint], net).

(** [backgrounds.find(bg => bg.id === matchedId)] *)
Definition findById (matchedId : option string) : option BackgroundImage :=
  match matchedId with
  | None => None
  | Some i => find (fun bg => (id bg =? i)%string) backgrounds
  end.

(** The body of the [try] block. *)
Definition askService (net : exn + Response) (userInput : string)
    : M BackgroundImage :=
  response <- fetch net ;;
  if negb (ok response) then throw (ApiError (status response))
  else
    data <- await (json response) ;;
    matchedId <- matchedIdOf data ;;
    match findById matchedId with
    | Some matched => ret matched
    | None => ret (keywordMatch userInput)
    end.

Definition matchBackgroundBody (net : exn + Response) (userInput : string)
    : M BackgroundImage :=
  if (userInput =? "")%string || (trim userInput =? "")%string then
    ret defaultBackground
  else if negb (truthy OPENAI_API_KEY) then
    ret (keywordMatch userInput)
  else
    tryCatch (askService net userInput)
             (fun _ => ret (keywordMatch userInput)).

(** [matchBackground(userInput)] when the network answers [net]: the
    requests sent and how the returned promise settles. *)
Definition matchBackground (net : exn + Response) (userInput : string)
    : list Event * Settled BackgroundImage :=
  settle (matchBackgroundBody net userInput).

(** The ways the external call fails: network error, non-2xx status,
    malformed response (no JSON, or JSON without a readable id), and an id
    that no catalog record has. *)
Inductive ExternalFailure : exn + Response -> Prop :=
| NetworkFailure e :
    ExternalFailure (inl e)
| StatusFailure r :
    ok r = false ->
    ExternalFailure (inr r)
| BodyFailure r e :
    ok r = true -> json r = inl e ->
    ExternalFailure (inr r)
| ShapeFailure r data e :
    ok r = true -> json r = inr data -> snd (matchedIdOf data) = inl e ->
    ExternalFailure (inr r)
| UnknownIdFailure r data i :
    ok r = true -> json r = inr data -> snd (matchedIdOf data) = inr i ->
    findById i = None ->
    ExternalFailure (inr r).

End Catalog.

(** *** A sample catalog

    An instance of the catalog parameters, used in the examples.  The ids
    and names are those quoted in the prompt of [matchBackground]
    ("bg12 (city night skyline)", "bg7 (space nebula)", ...); the tags are
    samples. *)

Definition bg4 : BackgroundImage :=
  {| id := "bg4"; filename := "ocean_sunset_beach.png";
     tags := ["ocean"; "sunset"; "beach"] |}.
Definition bg7 : BackgroundImage :=
  {| id := "bg7"; filename := "space_nebula.png";
     tags := ["space"; "nebula"; "stars"] |}.
Definition bg12 : BackgroundImage :=
  {| id := "bg12"; filename := "city_night_skyline.png";
     tags := ["city"; "night"; "skyline"] |}.

Definition sampleBackgrounds : list BackgroundImage := [bg4; bg7; bg12].
Definition sampleDefault : BackgroundImage := bg4.

(** A well-formed answer of the service carrying [content]. *)
Definition completion (content : string) : JSON :=
  JObj [("choices",
         JArr [JObj [("message", JObj [("role", JStr "assistant");
                                       ("content", JStr content)])]])].

End Matcher.

(** ** mainGame/MainGame.tsx *)

Module Game.
Import JsString.

Local Open Scope Z_scope.

(** An entry of [staticSprites] (gameConfig.ts). *)
Module Sprite.
Record t : Type := {
  id : string;
  x : Z;
  y : Z;
  color : string
}.
End Sprite.

(** The [position] state. *)
Record Position : Type := { x : Z; y : Z }.

(** The component state: [position] and [activeMenu] ([None] is [null]). *)
Record State : Type := {
  position : Position;
  activeMenu : option string
}.

(** What one animation frame reads from its environment:
    [keysPressed.current], [window.innerWidth] and [window.innerHeight]. *)
Record Frame : Type := {
  keysPressed : list string;
  innerWidth : Z;
  innerHeight : Z
}.

(** [keys.has(k)] *)
Definition has (keys : list string) (k : string) : bool :=
  existsb (String.eqb k) keys.

Definition speed : Z := 5.

(** [useState({ x: 0, y: 0 })], [useState(null)] *)
Definition initial : State :=
  {| position := {| x := 0; y := 0 |}; activeMenu := None |}.

(** What is on screen: the battle overlay with its [enemy], or the world. *)
Inductive View : Type :=
| BattleScreen (enemy : Sprite.t)
| World.

Section Config.

(** [staticSprites] and [SPRITE_SIZE] of gameConfig.ts. *)
Variable staticSprites : list Sprite.t.
Variable SPRITE_SIZE : Z.

(** The condition of the [if] in [checkCollision]. *)
Definition overlaps (xp yp : Z) (sprite : Sprite.t) : bool :=
  (xp <? Sprite.x sprite + SPRITE_SIZE)
  && (xp + SPRITE_SIZE >? Sprite.x sprite)
  && (yp <? Sprite.y sprite + SPRITE_SIZE)
  && (yp + SPRITE_SIZE >? Sprite.y sprite).

(** [checkCollision(xp, yp)] as a transformer of [activeMenu]: every
    overlapping sprite calls [setActiveMenu(sprite.id)], in the order of
    [staticSprites], and the loop has no [break]. *)
Definition checkCollision (xp yp : Z) (menu : option string) : option string :=
  fold_left
    (fun menu sprite =>
       if overlaps xp yp sprite then Some (Sprite.id sprite) else menu)
    staticSprites menu.

(** The updater passed to [setPosition] in [gameLoop], up to the boundary
    check. *)
Definition advance (f : Frame) (prev : Position) : Position :=
  let keys := keysPressed f in
  let newX := x prev in
  let newY := y prev in
  let newY := if has keys "ArrowUp" then newY - speed else newY in
  let newY := if has keys "ArrowDown" then newY + speed else newY in
  let newX := if has keys "ArrowLeft" then newX - speed else newX in
  let newX := if has keys "ArrowRight" then newX + speed else newX in
  let newX := Z.max 0 (Z.min newX (innerWidth f - SPRITE_SIZE)) in
  let newY := Z.max 0 (Z.min newY (innerHeight f - SPRITE_SIZE)) in
  {| x := newX; y := newY |}.

(** One run of [gameLoop]: the new position is returned (committed) after
    [checkCollision] has been called on it. *)
Definition gameLoop (f : Frame) (st : State) : State :=
  let p := advance f (position st) in
  {| position := p;
     activeMenu := checkCollision (x p) (y p) (activeMenu st) |}.

(** One animation frame: the effect starts no loop while [activeMenu] is
    truthy ([if (activeMenu) return]), and its cleanup cancels the pending
    frame once [activeMenu] has changed; the re-render is taken to happen
    before the next frame. *)
Definition tick (f : Frame) (st : State) : State :=
  if truthy (activeMenu st) then st else gameLoop f st.

(** [staticSprites.find(s => s.id === activeMenu)] *)
Definition activeSprite (st : State) : option Sprite.t :=
  match activeMenu st with
  | None => None
  | Some m => find (fun s => (Sprite.id s =? m)%string) staticSprites
  end.

(** [activeMenu && activeSprite ? <BattleScreen .../> : <>...</>] *)
Definition render (st : State) : View :=
  if truthy (activeMenu st) then
    match activeSprite st with
    | Some enemy => BattleScreen enemy
    | None => World
    end
  else World.

(** The [onClose] handler given to the battle screen of [enemy]. *)
Definition onClose (enemy : Sprite.t) (st : State) : State :=
  let prev := position st in
  {| position :=
       {| x := if x prev <? Sprite.x enemy then x prev - 10 else x prev + 10;
          y := if y prev <? Sprite.y enemy then y prev - 10 else y prev + 10 |};
     activeMenu := None |}.

(** The dismiss signal: [onClose] exists only while the battle screen is
    rendered; otherwise nothing handles the signal. *)
Definition dismiss (st : State) : State :=
  match render st with
  | BattleScreen enemy => onClose enemy st
  | World => st
  end.

(** The loop is RUNNING when the effect schedules frames, PAUSED otherwise. *)
Definition running (st : State) : bool := negb (truthy (activeMenu st)).

Inductive Input : Type :=
| Tick (f : Frame)
| Dismiss.

Definition step (st : State) (i : Input) : State :=
  match i with
  | Tick f => tick f st
  | Dismiss => dismiss st
  end.

Definition run (inputs : list Input) (st : State) : State :=
  fold_left step inputs st.

Definition reachable (st : State) : Prop :=
  exists inputs, run inputs initial = st.

(** The position lies in the viewport of frame [f] with its whole
    footprint. *)
Definition inBounds (f : Frame) (p : Position) : Prop :=
  0 <= x p <= innerWidth f - SPRITE_SIZE
  /\ 0 <= y p <= innerHeight f - SPRITE_SIZE.

(** Length on which two segments of length [SPRITE_SIZE] starting at [a]
    and [b] overlap (not positive when they do not). *)
Definition overlapLength (a b : Z) : Z :=
  Z.min (a + SPRITE_SIZE) (b + SPRITE_SIZE) - Z.max a b.

(** The sprites that overlap a footprint at [(xp, yp)], in list order. *)
Definition overlapping (xp yp : Z) : list Sprite.t :=
  filter (overlaps xp yp) staticSprites.

End Config.

(** *** Sample configurations

    Instances of the sprite table, used in the examples.  [squares] follows
    the layout of the four squares of ChoosingGame/MainChoosingGame.tsx
    (size 50); [crowded] puts two sprites less than a footprint apart. *)

Definition sprite (i : string) (sx sy : Z) (c : string) : Sprite.t :=
  {| Sprite.id := i; Sprite.x := sx; Sprite.y := sy; Sprite.color := c |}.

Definition squares : list Sprite.t :=
  [ sprite "enemy1" 200 150 "blue"; sprite "enemy2" 400 150 "blue";
    sprite "enemy3" 200 350 "blue"; sprite "enemy4" 400 350 "blue" ].

Definition crowded : list Sprite.t :=
  [ sprite "enemy1" 200 150 "blue"; sprite "enemy2" 230 150 "green" ].

Definition frame (keys : list string) (w h : Z) : Frame :=
  {| keysPressed := keys; innerWidth := w; innerHeight := h |}.

(** [n] frames with the right arrow held, then [m] frames with the down
    arrow held, in a viewport of [w] by [h]. *)
Definition rightThenDown (w h : Z) (n m : nat) : list Input :=
  (repeat (Tick (frame ["ArrowRight"] w h)) n
   ++ repeat (Tick (frame ["ArrowDown"] w h)) m)%list.

End Game.

(** ** backgroundMatcher.ts: the catalog listing of the prompt and the
       asset path *)

Module Prompt.
Import JsString Matcher.

(** [s.replace(/_/g, ' ')] *)
Fixpoint replaceUnderscores (s : string) : string :=
  match s with
  | EmptyString => EmptyString
  | String c r =>
      String (if (c =? "_")%char then " "%char else c) (replaceUnderscores r)
  end.

(** [s.slice(n)] *)
Fixpoint drop (n : nat) (s : string) : string :=
  match n, s with
  | O, _ => s
  | S _, EmptyString => EmptyString
  | S m, String _ r => drop m r
  end.

(** [s.replace(pat, '')] with a string pattern: only the first occurrence
    is removed. *)
Fixpoint removeFirst (pat s : string) : string :=
  if prefix pat s then drop (String.length pat) s
  else
    match s with
    | EmptyString => EmptyString
    | String c r => String c (removeFirst pat r)
    end.

(** [items.join(sep)] *)
Fixpoint join (sep : string) (items : list string) : string :=
  match items with
  | [] => EmptyString
  | a :: rest =>
      match rest with
      | [] => a
      | _ :: _ => a ++ sep ++ join sep rest
      end
  end.

(** [bg.filename.replace(/_/g, ' ').replace('.png', '')] *)
Definition sceneName (bg : BackgroundImage) : string :=
  removeFirst ".png" (replaceUnderscores (filename bg)).

(** The template [- ${bg.id}: ${...} (tags: ${bg.tags.join(', ')})]. *)
Definition sceneLine (bg : BackgroundImage) : string :=
  "- " ++ id bg ++ ": " ++ sceneName bg
  ++ " (tags: " ++ join ", " (tags bg) ++ ")".

Definition newline : string := String (ascii_of_nat 10) EmptyString.

(** [backgrounds.map(bg => ...).join('\n')], the list of scenes sent with
    the request. *)
Definition sceneListing (backgrounds : list BackgroundImage) : string :=
  join newline (map sceneLine backgrounds).

(** [getBackgroundPath(background)] *)
Definition getBackgroundPath (background : BackgroundImage) : string :=
  "/src/assets/backgrounds/" ++ filename background.

End Prompt.

(** ** mainGame/MainGame.tsx: loading the background on mount *)

Module Loader.
Import JsString Matcher.

(** The [background] and [isLoadingBg] states. *)
Record State : Type := {
  background : option BackgroundImage;
  isLoadingBg : bool
}.

(** [useState(null)], [useState(false)] *)
Definition initial : State :=
  {| background := None; isLoadingBg := false |}.

(** [setIsLoadingBg(true)], run when [userAnswers?.background] is truthy. *)
Definition started (st : State) : State :=
  {| background := background st; isLoadingBg := true |}.

(** The [.then] and [.catch] callbacks. *)
Definition settled (r : Settled BackgroundImage) (st : State) : State :=
  match r with
  | Resolved matched => {| background := Some matched; isLoadingBg := false |}
  | Rejected _ => {| background := background st; isLoadingBg := false |}
  end.

(** [backgroundStyle.backgroundImage]: present only when [background] is
    set. *)
Definition backgroundImage (st : State) : option string :=
  match background st with
  | Some bg => Some ("url(/src/assets/backgrounds/" ++ filename bg ++ ")")
  | None => None
  end.

Section Mount.

Variable backgrounds : list BackgroundImage.
Variable defaultBackground : BackgroundImage.
Variable OPENAI_API_KEY : option string.

(** The mount effect run to completion on the answer
    [userAnswers?.background] ([None] is [undefined]), the network
    answering [net]: the requests sent and the final state. *)
Definition mount (net : exn + Response) (answer : option string)
    (st : State) : list Event * State :=
  match answer with
  | Some text =>
      if truthy answer then
        let (trace, r) :=
          matchBackground backgrounds defaultBackground OPENAI_API_KEY
            net text in
        (trace, settled r (started st))
      else ([], st)
  | None => ([], st)
  end.

End Mount.

End Loader.

(** ** ChoosingGame/MainChoosingGame.tsx *)

Module ChoosingGame.
Import JsString Game.

Local Open Scope Z_scope.

(** [blueSquares], as positions. *)
Definition blueSquares : list Position :=
  [ {| x := 200; y := 150 |}; {| x := 400; y := 150 |};
    {| x := 200; y := 350 |}; {| x := 400; y := 350 |} ].

Definition cubeSize : Z := 50.

(** The condition of the [if] in [checkCollision]. *)
Definition hits (xp yp : Z) (square : Position) : bool :=
  (xp <? x square + cubeSize)
  && (xp + cubeSize >? x square)
  && (yp <? y square + cubeSize)
  && (yp + cubeSize >? y square).

(** [checkCollision(xp, yp)]: the lines written by [console.log]. *)
Definition checkCollision (xp yp : Z) : list string :=
  fold_left
    (fun log square =>
       if hits xp yp square then (log ++ ["hello"%string])%list else log)
    blueSquares [].

(** One run of [gameLoop]: the same updater as in MainGame.tsx with
    [cubeSize] for the size, and the lines logged. *)
Definition gameLoop (f : Frame) (prev : Position) : Position * list string :=
  let p := advance cubeSize f prev in
  (p, checkCollision (x p) (y p)).

(** The position after the frames [fs], and everything logged. *)
Definition play (fs : list Frame) (start : Position) : Position * list string :=
  fold_left
    (fun acc f =>
       let (p, log) := gameLoop f (fst acc) in (p, (snd acc ++ log)%list))
    fs (start, []).

End ChoosingGame.

(** * Properties *)

(** ** Strings *)

Section StringFacts.
Import JsString.

Example split_two_words : splitWs "big  city" = ["big"; "city"].
Proof. reflexivity. Qed.

Example split_leading_gap : splitWs " a " = [""; "a"; ""].
Proof. reflexivity. Qed.

Example split_empty : splitWs "" = [""].
Proof. reflexivity. Qed.

Example trim_both_sides : trim "  bg12 " = "bg12".
Proof. reflexivity. Qed.

Example lower_mixed : toLowerCase "Big CITY" = "big city".
Proof. reflexivity. Qed.

Lemma isWhiteSpace_lowerChar c : isWhiteSpace (lowerChar c) = isWhiteSpace c.
Proof.
  destruct c as [[] [] [] [] [] [] [] []]; reflexivity.
Qed.

Lemma lowerChar_idem c : lowerChar (lowerChar c) = lowerChar c.
Proof.
  destruct c as [[] [] [] [] [] [] [] []]; reflexivity.
Qed.

Lemma toLowerCase_idem s : toLowerCase (toLowerCase s) = toLowerCase s.
Proof.
  induction s as [|c r IH]; simpl; [reflexivity|].
  now rewrite lowerChar_idem, IH.
Qed.

Lemma length_toLowerCase s : String.length (toLowerCase s) = String.length s.
Proof.
  induction s as [|c r IH]; simpl; congruence.
Qed.


Lemma splitGo_nonempty b s : splitGo b s <> [].
Proof.
  revert b; induction s as [|c r IH]; intros b; simpl; [discriminate|].
  destruct (isWhiteSpace c).
  - destruct b; [apply IH | discriminate].
  - destruct (splitGo false r); discriminate.
Qed.

Lemma splitGo_toLowerCase b s :
  splitGo b (toLowerCase s) = map toLowerCase (splitGo b s).
Proof.
  revert b; induction s as [|c r IH]; intros b; simpl; [reflexivity|].
  rewrite isWhiteSpace_lowerChar.
  destruct (isWhiteSpace c).
  - destruct b; simpl; now rewrite IH.
  - rewrite IH. destruct (splitGo false r); reflexivity.
Qed.

Lemma splitWs_toLowerCase s :
  splitWs (toLowerCase s) = map toLowerCase (splitWs s).
Proof. apply splitGo_toLowerCase. Qed.

Lemma trimStart_blank s : isBlank s = true -> trimStart s = "".
Proof.
  induction s as [|c r IH]; simpl; [reflexivity|].
  intros H; apply andb_prop in H as [Hc Hr]. now rewrite Hc; apply IH.
Qed.

Lemma trim_blank s : isBlank s = true -> trim s = "".
Proof.
  intros H. unfold trim. now rewrite (trimStart_blank s H).
Qed.



Lemma prefix_refl s : prefix s s = true.
Proof.
  induction s as [|c r IH]; simpl; [reflexivity|].
  destruct (ascii_dec c c); [assumption | congruence].
Qed.

Lemma includes_refl s : includes s s = true.
Proof.
  destruct s; simpl; [reflexivity|].
  destruct (ascii_dec a a); [|congruence]. now rewrite prefix_refl.
Qed.



Lemma includes_empty_left sub : includes "" sub = true -> sub = "".
Proof.
  simpl. rewrite orb_false_r. destruct sub; [reflexivity|discriminate].
Qed.

End StringFacts.

(** ** The keyword matcher *)

Section ScoreFacts.
Import JsString Matcher.

Lemma list_sum_ge_member (f : string -> nat) (l : list string) (a : string) :
  In a l -> f a <= list_sum (map f l).
Proof.
  induction l as [|b l IH]; simpl; [contradiction|].
  intros [->|H]; [lia|]. specialize (IH H). lia.
Qed.


Lemma wordStep_points tagLower acc word :
  wordStep tagLower acc word = acc + wordPoints tagLower word.
Proof.
  unfold wordStep, wordPoints.
  destruct (word =? tagLower)%string; [reflexivity|].
  destruct ((3 <? String.length word) && includes tagLower word);
    [reflexivity|].
  destruct ((3 <? String.length tagLower) && includes word tagLower);
    [reflexivity | lia].
Qed.

Lemma words_loop tagLower words acc :
  fold_left (wordStep tagLower) words acc
  = acc + list_sum (map (wordPoints tagLower) words).
Proof.
  revert acc; induction words as [|w ws IH]; intros acc; simpl; [lia|].
  rewrite IH, wordStep_points. lia.
Qed.

Lemma tagStep_points inputLower words acc tag :
  tagStep inputLower words acc tag = acc + tagPoints inputLower words tag.
Proof.
  unfold tagStep, tagPoints, phrasePoints. rewrite words_loop.
  destruct (includes inputLower (toLowerCase tag)
            && (3 <? String.length (toLowerCase tag))); lia.
Qed.

Lemma tags_loop inputLower words tags acc :
  fold_left (tagStep inputLower words) tags acc
  = acc + list_sum (map (tagPoints inputLower words) tags).
Proof.
  revert acc; induction tags as [|t ts IH]; intros acc; simpl; [lia|].
  rewrite IH, tagStep_points. lia.
Qed.

Lemma scoreOf_sum inputLower words bg :
  scoreOf inputLower words bg
  = list_sum (map (tagPoints inputLower words) (tags bg)).
Proof. unfold scoreOf. now rewrite tags_loop. Qed.

(** The loop over the records keeps the first record whose score is the
    highest one above the starting [bestScore], or leaves the pair as it
    was. *)
Lemma records_loop inputLower words l best bestScore :
  let sc := scoreOf inputLower words in
  let r := fold_left (bgStep inputLower words) l (best, bestScore) in
  (r = (best, bestScore) /\ Forall (fun b => sc b <= bestScore) l)
  \/ (exists l1 bg l2,
        l = (l1 ++ bg :: l2)%list /\ r = (bg, sc bg) /\ bestScore < sc bg
        /\ Forall (fun b => sc b < sc bg) l1
        /\ Forall (fun b => sc b <= sc bg) l2).
Proof.
  intros sc. revert best bestScore.
  induction l as [|a l IH]; intros best bestScore; simpl.
  - left. split; [reflexivity | constructor].
  - change (bgStep inputLower words (best, bestScore) a)
      with (if bestScore <? sc a then (a, sc a) else (best, bestScore)).
    destruct (bestScore <? sc a) eqn:E.
    + apply Nat.ltb_lt in E. right.
      destruct (IH a (sc a)) as [[Hr Hall] | (l1 & bg & l2 & -> & Hr & Hlt & H1 & H2)].
      * exists [], a, l. repeat split; auto.
      * exists (a :: l1), bg, l2.
        split; [reflexivity|]. split; [assumption|]. split; [lia|].
        split; [constructor; [lia | assumption] | assumption].
    + apply Nat.ltb_ge in E.
      destruct (IH best bestScore) as [[Hr Hall] | (l1 & bg & l2 & -> & Hr & Hlt & H1 & H2)].
      * left. split; [assumption | constructor; assumption].
      * right. exists (a :: l1), bg, l2.
        split; [reflexivity|]. split; [assumption|]. split; [assumption|].
        split; [constructor; [lia | assumption] | assumption].
Qed.

End ScoreFacts.

Section MatcherClaims.
Import JsString Matcher.

Variable backgrounds : list BackgroundImage.
Variable defaultBackground : BackgroundImage.
Variable OPENAI_API_KEY : option string.

Local Notation keywordMatch := (Matcher.keywordMatch backgrounds defaultBackground).
Local Notation matchBackground :=
  (Matcher.matchBackground backgrounds defaultBackground OPENAI_API_KEY).
Local Notation askService := (Matcher.askService backgrounds defaultBackground).
Local Notation findById := (Matcher.findById backgrounds).
Local Notation ExternalFailure := (Matcher.ExternalFailure backgrounds).

Lemma keywordMatch_choice (userInput : string) :
  (keywordMatch userInput = defaultBackground
   /\ Forall (fun b => score userInput b = 0) backgrounds)
  \/ (exists l1 bg l2,
        backgrounds = (l1 ++ bg :: l2)%list
        /\ keywordMatch userInput = bg
        /\ 0 < score userInput bg
        /\ Forall (fun b => score userInput b < score userInput bg) l1
        /\ Forall (fun b => score userInput b <= score userInput bg) l2).
Proof.
  unfold Matcher.keywordMatch, score.
  set (il := toLowerCase userInput). set (ws := splitWs il).
  destruct (records_loop il ws backgrounds defaultBackground 0)
    as [[Hr Hall] | (l1 & bg & l2 & Hl & Hr & Hlt & H1 & H2)].
  - left. rewrite Hr. split; [reflexivity|].
    eapply Forall_impl; [|exact Hall]. simpl. intros b Hb. lia.
  - right. exists l1, bg, l2. rewrite Hr. repeat split; assumption.
Qed.

Lemma keywordMatch_in_catalog (userInput : string) :
  keywordMatch userInput = defaultBackground
  \/ In (keywordMatch userInput) backgrounds.
Proof.
  destruct (keywordMatch_choice userInput)
    as [[Hd _] | (l1 & bg & l2 & Hl & Hk & _)].
  - now left.
  - right. rewrite Hk, Hl. apply in_or_app. right. now left.
Qed.

(** C1, amended.  The score of a record is the sum, over its tags and over
    the input words, of 10 for a word equal to the lower-cased tag, else 3
    for a word longer than 3 inside the tag, else 3 for a tag longer than 3
    inside the word, plus 5 per tag longer than 3 found in the lower-cased
    input; the record returned is the first one of the catalog with the
    highest score when that score is positive, and the default when every
    record scores 0. *)
Theorem keywordMatch_score_and_choice (userInput : string) :
  let inputLower := toLowerCase userInput in
  let words := splitWs inputLower in
  (forall bg,
     score userInput bg
     = list_sum
         (map (fun tag =>
                 list_sum (map (wordPoints (toLowerCase tag)) words)
                 + phrasePoints inputLower (toLowerCase tag))
              (tags bg)))
  /\ ((keywordMatch userInput = defaultBackground
       /\ Forall (fun b => score userInput b = 0) backgrounds)
      \/ (exists l1 bg l2,
            backgrounds = (l1 ++ bg :: l2)%list
            /\ keywordMatch userInput = bg
            /\ 0 < score userInput bg
            /\ Forall (fun b => score userInput b < score userInput bg) l1
            /\ Forall (fun b => score userInput b <= score userInput bg) l2)).
Proof.
  intros inputLower words. split.
  - intros bg. unfold score. apply scoreOf_sum.
  - apply keywordMatch_choice.
Qed.

(** C7.  A tag of the record that is one of the white-space separated words
    of the input gives the record a score of at least 10. *)
Theorem exact_word_scores_ten (userInput : string) (bg : BackgroundImage)
    (tag : string) :
  In tag (tags bg) -> In tag (splitWs userInput) ->
  10 <= score userInput bg.
Proof.
  intros Htag Hword. unfold score. rewrite scoreOf_sum.
  set (il := toLowerCase userInput).
  pose proof (list_sum_ge_member (tagPoints il (splitWs il)) _ _ Htag) as H1.
  assert (Hin : In (toLowerCase tag) (splitWs il)).
  { unfold il. rewrite splitWs_toLowerCase. now apply in_map. }
  pose proof (list_sum_ge_member (wordPoints (toLowerCase tag)) _ _ Hin) as H2.
  unfold wordPoints at 1 in H2. rewrite String.eqb_refl in H2.
  unfold tagPoints at 1 in H1. lia.
Qed.



(** *** The resolver *)

Lemma tryCatch_fallback (m : M BackgroundImage) (a : BackgroundImage) :
  snd (tryCatch m (fun _ => ret a))
  = inr (match snd m with inl _ => a | inr b => b end).
Proof. destruct m as [t [e|b]]; reflexivity. Qed.

Lemma bind_snd {A B} (m : M A) (f : A -> M B) :
  snd (bind m f)
  = match snd m with inl e => inl e | inr a => snd (f a) end.
Proof.
  destruct m as [t [e|a]]; simpl; [reflexivity|].
  now destruct (f a).
Qed.

(** What the [try] block yields, case by case on the answer. *)
Lemma askService_result (net : exn + Response) (userInput : string) :
  snd (askService net userInput)
  = match net with
    | inl e => inl e
    | inr r =>
        if ok r then
          match json r with
          | inl e => inl e
          | inr data =>
              match snd (matchedIdOf data) with
              | inl e => inl e
              | inr i =>
                  inr (match findById i with
                       | Some matched => matched
                       | None => keywordMatch userInput
                       end)
              end
          end
        else inl (ApiError (status r))
    end.
Proof.
  unfold Matcher.askService, fetch, await.
  destruct net as [e|r]; [reflexivity|].
  rewrite bind_snd. cbn [snd].
  destruct (ok r); cbn [negb]; [|reflexivity].
  rewrite bind_snd. cbn [snd].
  destruct (json r) as [e|data]; [reflexivity|].
  rewrite bind_snd.
  destruct (snd (matchedIdOf data)) as [e|i]; [reflexivity|].
  now destruct (findById i).
Qed.

Lemma findById_in (i : option string) (bg : BackgroundImage) :
  findById i = Some bg -> In bg backgrounds /\ i = Some (id bg).
Proof.
  destruct i as [i|]; simpl; [|discriminate].
  intros H. apply find_some in H as [Hin Heq].
  apply String.eqb_eq in Heq. subst i. now split.
Qed.

Lemma settle_snd {A} (m : M A) :
  snd (settle m)
  = match snd m with inl e => Rejected e | inr a => Resolved a end.
Proof. now destruct m as [t [e|a]]. Qed.

Lemma settle_fst {A} (m : M A) : fst (settle m) = fst m.
Proof. now destruct m as [t [e|a]]. Qed.

(** C3.  Whatever the network answers, the promise of [matchBackground]
    resolves, to the default record or to a record of [backgrounds]; and
    when the request was sent and failed (network error, non-2xx status,
    malformed response, unknown id) it resolves to what [keywordMatch]
    returns on the same input. *)
Theorem matchBackground_never_rejects (net : exn + Response)
    (userInput : string) :
  (exists bg,
     snd (matchBackground net userInput) = Resolved bg
     /\ (bg = defaultBackground \/ In bg backgrounds))
  /\ (In (Fetch endpoint) (fst (matchBackground net userInput)) ->
      ExternalFailure net ->
      snd (matchBackground net userInput)
      = Resolved (keywordMatch userInput)).
Proof.
  unfold Matcher.matchBackground.
  rewrite settle_snd, settle_fst. unfold matchBackgroundBody.
  destruct ((userInput =? "")%string || (trim userInput =? "")%string).
  { simpl. split; [|contradiction].
    exists defaultBackground. split; [reflexivity | now left]. }
  destruct (negb (truthy OPENAI_API_KEY)).
  { simpl. split; [|contradiction].
    exists (keywordMatch userInput).
    split; [reflexivity | apply keywordMatch_in_catalog]. }
  rewrite tryCatch_fallback, askService_result. split.
  - eexists. split; [reflexivity|].
    destruct net as [e|r]; [apply keywordMatch_in_catalog|].
    destruct (ok r); [|apply keywordMatch_in_catalog].
    destruct (json r) as [e|data]; [apply keywordMatch_in_catalog|].
    destruct (snd (matchedIdOf data)) as [e|i];
      [apply keywordMatch_in_catalog|].
    destruct (findById i) as [m|] eqn:Ef; [|apply keywordMatch_in_catalog].
    right. now apply (findById_in i).
  - intros _ Hfail.
    destruct Hfail as [e | r Hok | r e Hok Hj | r data e Hok Hj Hid
                      | r data i Hok Hj Hid Hfind].
    + reflexivity.
    + now rewrite Hok.
    + now rewrite Hok, Hj.
    + now rewrite Hok, Hj, Hid.
    + now rewrite Hok, Hj, Hid, Hfind.
Qed.


End MatcherClaims.

Section MatcherExamples.
Import JsString Matcher.

Lemma list_sum_lt (f g : string -> nat) (l : list string) (a : string) :
  (forall b, In b l -> f b <= g b) -> In a l -> f a < g a ->
  list_sum (map f l) < list_sum (map g l).
Proof.
  intros Hle Hin Hlt.
  induction l as [|b l IH]; simpl; [contradiction|].
  assert (Hrest : list_sum (map f l) <= list_sum (map g l)).
  { clear IH Hin. induction l as [|c l IHl]; simpl; [lia|].
    pose proof (Hle c (or_intror (or_introl eq_refl))).
    assert (list_sum (map f l) <= list_sum (map g l)); [|lia].
    apply IHl. intros d Hd. apply Hle. simpl in *. tauto. }
  destruct Hin as [->|Hin].
  - lia.
  - pose proof (Hle b (or_introl eq_refl)).
    assert (list_sum (map f l) < list_sum (map g l)); [|lia].
    apply IH; [|assumption]. intros d Hd. apply Hle. now right.
Qed.

(** The score of the code against the reference score of the
    specification, on an input that is one tag of the record: whenever the
    record has a lower-case tag of more than 3 characters without white
    space, the code gives less than the reference (the code gives a word
    equal to the tag 10 and not 10 + 3). *)
Lemma score_below_reference (bg : BackgroundImage) (tag : string) :
  In tag (tags bg) -> 3 < String.length tag -> splitWs tag = [tag] ->
  Forall (fun t => toLowerCase t = t) (tags bg) ->
  score tag bg < specScore tag bg.
Proof.
  intros Hin Hlen Hsplit Hlow. rewrite Forall_forall in Hlow.
  unfold score, specScore. rewrite scoreOf_sum, (Hlow tag Hin), Hsplit.
  apply Nat.ltb_lt in Hlen.
  apply (list_sum_lt _ _ _ tag); [|assumption|].
  - intros t Ht. unfold tagPoints, specTagScore, wordPoints, phrasePoints.
    rewrite (Hlow t Ht). simpl.
    destruct (tag =? t)%string, (3 <? String.length tag), (includes t tag),
      (3 <? String.length t), (includes tag t); simpl; lia.
  - unfold tagPoints, specTagScore, wordPoints, phrasePoints.
    rewrite (Hlow tag Hin). simpl.
    rewrite String.eqb_refl, includes_refl, Hlen. simpl. lia.
Qed.

(** C1, as stated, fails: on the input "space space" the record with the
    tag "space" scores 10 + 10 + 5 in the code, and 10 + 3 + 5 by the
    reference definition. *)
Lemma keywordMatch_score_not_reference :
  isBlank "space space" = false
  /\ In bg7 sampleBackgrounds
  /\ score "space space" bg7 = 25
  /\ specScore "space space" bg7 = 18
  /\ score "space space" bg7 <> specScore "space space" bg7.
Proof.
  split; [reflexivity|]. split; [simpl; tauto|].
  split; [reflexivity|]. split; [reflexivity|].
  vm_compute. discriminate.
Qed.

Example keywordMatch_outer_space :
  keywordMatch sampleBackgrounds sampleDefault "outer space" = bg7.
Proof. reflexivity. Qed.

Example keywordMatch_no_signal :
  keywordMatch sampleBackgrounds sampleDefault "hello there" = sampleDefault.
Proof. reflexivity. Qed.

(** First record wins a tie: both records score 15. *)
Example keywordMatch_tie :
  keywordMatch sampleBackgrounds sampleDefault "night stars" = bg7.
Proof. reflexivity. Qed.

Lemma exact_word_scores_ten_witness :
  In "space" (tags bg7) /\ In "space" (splitWs "outer space")
  /\ 10 <= score "outer space" bg7.
Proof.
  assert (H1 : In "space" (tags bg7)) by (simpl; tauto).
  assert (H2 : In "space" (splitWs "outer space")) by (simpl; tauto).
  split; [exact H1|]. split; [exact H2|].
  exact (exact_word_scores_ten "outer space" bg7 "space" H1 H2).
Defined.




(** The proviso on the tags is needed: a record with an empty tag collects
    10 for every empty word of a blank input. *)
Example blank_tag_wins_blank_input :
  keywordMatch [ {| id := "bg0"; filename := "blank.png"; tags := [""] |} ]
    sampleDefault " "
  = {| id := "bg0"; filename := "blank.png"; tags := [""] |}.
Proof. reflexivity. Qed.

Lemma matchBackground_never_rejects_witness :
  In (Fetch endpoint)
     (fst (matchBackground sampleBackgrounds sampleDefault (Some "sk-test")
             (inl NetworkError) "outer space"))
  /\ ExternalFailure sampleBackgrounds (inl NetworkError)
  /\ snd (matchBackground sampleBackgrounds sampleDefault (Some "sk-test")
            (inl NetworkError) "outer space")
     = Resolved (keywordMatch sampleBackgrounds sampleDefault "outer space").
Proof.
  assert (H1 : In (Fetch endpoint)
                  (fst (matchBackground sampleBackgrounds sampleDefault
                          (Some "sk-test") (inl NetworkError) "outer space")))
    by (simpl; tauto).
  assert (H2 : ExternalFailure sampleBackgrounds (inl NetworkError))
    by constructor.
  split; [exact H1|]. split; [exact H2|].
  exact (proj2 (matchBackground_never_rejects sampleBackgrounds sampleDefault
                  (Some "sk-test") (inl NetworkError) "outer space") H1 H2).
Defined.

Example matchBackground_known_id :
  matchBackground sampleBackgrounds sampleDefault (Some "sk-test")
    (inr {| status := 200; json := inr (completion " bg12 ") |}) "Toronto"
  = ([Fetch endpoint], Resolved bg12).
Proof. reflexivity. Qed.

Example matchBackground_unknown_id :
  matchBackground sampleBackgrounds sampleDefault (Some "sk-test")
    (inr {| status := 200; json := inr (completion "bg99") |}) "outer space"
  = ([Fetch endpoint], Resolved bg7).
Proof. reflexivity. Qed.

Example matchBackground_no_choices :
  matchBackground sampleBackgrounds sampleDefault (Some "sk-test")
    (inr {| status := 200; json := inr (JObj []) |}) "outer space"
  = ([Fetch endpoint], Resolved bg7).
Proof. reflexivity. Qed.

Example matchBackground_no_key :
  matchBackground sampleBackgrounds sampleDefault None
    (inr {| status := 200; json := inr (completion "bg12") |}) "space"
  = ([], Resolved bg7).
Proof. reflexivity. Qed.

End MatcherExamples.

(** ** The motion and collision loop *)

Section GameClaims.
Import JsString Game.
Local Open Scope Z_scope.

Variable staticSprites : list Sprite.t.
Variable SPRITE_SIZE : Z.

Local Notation overlaps := (Game.overlaps SPRITE_SIZE).
Local Notation overlapLength := (Game.overlapLength SPRITE_SIZE).
Local Notation overlapping := (Game.overlapping staticSprites SPRITE_SIZE).
Local Notation checkCollision := (Game.checkCollision staticSprites SPRITE_SIZE).
Local Notation advance := (Game.advance SPRITE_SIZE).
Local Notation gameLoop := (Game.gameLoop staticSprites SPRITE_SIZE).
Local Notation tick := (Game.tick staticSprites SPRITE_SIZE).
Local Notation dismiss := (Game.dismiss staticSprites).
Local Notation render := (Game.render staticSprites).
Local Notation run := (Game.run staticSprites SPRITE_SIZE).
Local Notation inBounds := (Game.inBounds SPRITE_SIZE).

Lemma overlaps_iff (xp yp : Z) (sprite : Sprite.t) :
  overlaps xp yp sprite = true
  <-> xp < Sprite.x sprite + SPRITE_SIZE /\ Sprite.x sprite < xp + SPRITE_SIZE
      /\ yp < Sprite.y sprite + SPRITE_SIZE /\ Sprite.y sprite < yp + SPRITE_SIZE.
Proof.
  unfold Game.overlaps.
  rewrite !andb_true_iff, !Z.ltb_lt, !Z.gtb_lt. tauto.
Qed.

(** C5.  The test of [checkCollision] holds exactly when the two footprints
    overlap on a positive length on both axes; footprints that touch (length
    0 on an axis) do not collide, footprints that overlap by 1 on both axes
    do; and a sprite sets the trigger exactly when the test holds. *)
Theorem overlap_test_exact (xp yp : Z) (sprite : Sprite.t) :
  (overlaps xp yp sprite = true
   <-> 0 < overlapLength xp (Sprite.x sprite)
       /\ 0 < overlapLength yp (Sprite.y sprite))
  /\ (overlapLength xp (Sprite.x sprite) = 0
      \/ overlapLength yp (Sprite.y sprite) = 0 ->
      overlaps xp yp sprite = false)
  /\ (overlapLength xp (Sprite.x sprite) = 1
      /\ overlapLength yp (Sprite.y sprite) = 1 ->
      overlaps xp yp sprite = true)
  /\ (Game.checkCollision [sprite] SPRITE_SIZE xp yp None
      = Some (Sprite.id sprite)
      <-> overlaps xp yp sprite = true).
Proof.
  assert (Hiff : overlaps xp yp sprite = true
                 <-> 0 < overlapLength xp (Sprite.x sprite)
                     /\ 0 < overlapLength yp (Sprite.y sprite)).
  { rewrite overlaps_iff. unfold Game.overlapLength. lia. }
  split; [exact Hiff|]. split; [|split].
  - intros H. apply not_true_is_false. rewrite Hiff. lia.
  - intros H. apply Hiff. lia.
  - unfold Game.checkCollision. simpl.
    destruct (overlaps xp yp sprite); split; congruence.
Qed.

Lemma advance_clamped (f : Frame) (prev : Position) :
  SPRITE_SIZE <= innerWidth f -> SPRITE_SIZE <= innerHeight f ->
  inBounds f (advance f prev).
Proof.
  intros Hw Hh. unfold Game.inBounds, Game.advance. simpl. lia.
Qed.

(** C4.  Whatever happened before (any sequence of frames and dismissals
    from any state) and whatever keys are held, the position a running
    frame produces lies in [0, innerWidth - SPRITE_SIZE] x
    [0, innerHeight - SPRITE_SIZE], the viewport being at least a footprint
    wide and high. *)
Theorem tick_position_in_bounds (history : list Input) (start : State)
    (f : Frame) :
  SPRITE_SIZE <= innerWidth f -> SPRITE_SIZE <= innerHeight f ->
  running (run history start) = true ->
  inBounds f (position (tick f (run history start))).
Proof.
  intros Hw Hh Hrun. unfold Game.tick.
  unfold running in Hrun. apply negb_true_iff in Hrun. rewrite Hrun.
  simpl. now apply advance_clamped.
Qed.

(** The loop of [checkCollision] leaves the id of the last overlapping
    sprite, or the menu as it was. *)
Lemma setActiveMenu_last (xp yp : Z) (l : list Sprite.t) (menu : option string) :
  fold_left
    (fun menu sprite =>
       if overlaps xp yp sprite then Some (Sprite.id sprite) else menu)
    l menu
  = match List.rev (filter (overlaps xp yp) l) with
    | [] => menu
    | hit :: _ => Some (Sprite.id hit)
    end.
Proof.
  revert menu; induction l as [|a l IH]; intros menu; simpl; [reflexivity|].
  rewrite IH. destruct (overlaps xp yp a); simpl; [|reflexivity].
  destruct (List.rev (filter (overlaps xp yp) l)); reflexivity.
Qed.

Lemma checkCollision_last xp yp menu others hit :
  overlapping xp yp = (others ++ [hit])%list ->
  checkCollision xp yp menu = Some (Sprite.id hit).
Proof.
  intros H. unfold Game.checkCollision. rewrite setActiveMenu_last.
  unfold Game.overlapping in H. rewrite H, rev_app_distr. reflexivity.
Qed.

Lemma checkCollision_none xp yp menu :
  overlapping xp yp = [] -> checkCollision xp yp menu = menu.
Proof.
  intros H. unfold Game.checkCollision. rewrite setActiveMenu_last.
  unfold Game.overlapping in H. now rewrite H.
Qed.

Lemma paused_ticks_idle (frames : list Frame) (st : State) :
  running st = false -> run (map Tick frames) st = st.
Proof.
  intros H. apply negb_false_iff in H.
  unfold Game.run.
  induction frames as [|f fs IH]; simpl; [reflexivity|].
  unfold Game.tick at 1. rewrite H. exact IH.
Qed.

Lemma overlapping_member xp yp sprite :
  In sprite (overlapping xp yp)
  <-> In sprite staticSprites /\ overlaps xp yp sprite = true.
Proof. unfold Game.overlapping. apply filter_In. Qed.

(** C2, amended.  On a frame of the running loop whose new footprint
    overlaps at least one sprite, [activeMenu] becomes the id of the last
    overlapping sprite in the order of [staticSprites]; the loop is then
    paused, that id being a non-empty string.  When the overlapping sprites
    before the last one carry the same id (so when a single sprite
    overlaps), this is the id of the first overlapping sprite. *)
Theorem collision_records_last_overlapping (f : Frame) (st : State)
    (others : list Sprite.t) (hit : Sprite.t) :
  running st = true ->
  overlapping (x (advance f (position st))) (y (advance f (position st)))
  = (others ++ [hit])%list ->
  activeMenu (tick f st) = Some (Sprite.id hit)
  /\ (Sprite.id hit <> ""%string -> running (tick f st) = false)
  /\ ((forall s, In s others -> Sprite.id s = Sprite.id hit) ->
      activeMenu (tick f st)
      = option_map Sprite.id
          (hd_error (overlapping (x (advance f (position st)))
                                 (y (advance f (position st)))))).
Proof.
  intros Hrun Hhit. unfold running in Hrun. apply negb_true_iff in Hrun.
  assert (Hmenu : activeMenu (tick f st) = Some (Sprite.id hit)).
  { unfold Game.tick. rewrite Hrun. simpl.
    now apply (checkCollision_last _ _ _ others). }
  split; [exact Hmenu|]. split.
  - intros Hid. unfold running. rewrite Hmenu. simpl.
    apply String.eqb_neq in Hid. now rewrite Hid.
  - intros Hsame. rewrite Hmenu, Hhit.
    destruct others as [|s others]; simpl; [reflexivity|].
    f_equal. symmetry. apply Hsame. now left.
Qed.

(** C9.  A frame that detects a collision still commits the new, clamped
    position: the stored position is the candidate one, it overlaps the
    sprite whose id was recorded, and it stays so over the frames that
    follow while the loop is paused. *)
Theorem collision_commits_position (f : Frame) (st : State)
    (others : list Sprite.t) (hit : Sprite.t) :
  running st = true ->
  overlapping (x (advance f (position st))) (y (advance f (position st)))
  = (others ++ [hit])%list ->
  position (tick f st) = advance f (position st)
  /\ activeMenu (tick f st) = Some (Sprite.id hit)
  /\ In hit staticSprites
  /\ overlaps (x (position (tick f st))) (y (position (tick f st))) hit = true
  /\ (Sprite.id hit <> ""%string ->
      forall frames, run (map Tick frames) (tick f st) = tick f st).
Proof.
  intros Hrun Hhit. unfold running in Hrun. apply negb_true_iff in Hrun.
  assert (Hpos : position (tick f st) = advance f (position st)).
  { unfold Game.tick. now rewrite Hrun. }
  assert (Hmenu : activeMenu (tick f st) = Some (Sprite.id hit)).
  { unfold Game.tick. rewrite Hrun. simpl.
    now apply (checkCollision_last _ _ _ others). }
  assert (Hin : In hit (overlapping (x (advance f (position st)))
                                    (y (advance f (position st))))).
  { rewrite Hhit. apply in_or_app. right. now left. }
  apply overlapping_member in Hin as [Hin Hov].
  split; [exact Hpos|]. split; [exact Hmenu|]. split; [exact Hin|].
  split; [now rewrite Hpos|].
  intros Hid frames. apply paused_ticks_idle.
  unfold running. rewrite Hmenu. simpl.
  apply String.eqb_neq in Hid. now rewrite Hid.
Qed.

(** C8.  With no active trigger ([activeMenu] is [null]) the dismiss signal
    changes nothing: same position, same menu, and the loop keeps
    running. *)
Theorem dismiss_without_trigger (st : State) :
  activeMenu st = None ->
  dismiss st = st /\ running (dismiss st) = true.
Proof.
  intros H. unfold Game.dismiss, Game.render, running. rewrite H. simpl.
  rewrite H. split; reflexivity.
Qed.

Lemma dismiss_battle (st : State) (enemy : Sprite.t) :
  render st = BattleScreen enemy -> dismiss st = onClose enemy st.
Proof. intros H. unfold Game.dismiss. now rewrite H. Qed.

(** Every state the game reaches has [activeMenu] null or the id of one
    of the sprites. *)
Lemma activeMenu_of_sprite (inputs : list Input) :
  let st := run inputs initial in
  activeMenu st = None
  \/ exists s, In s staticSprites /\ activeMenu st = Some (Sprite.id s).
Proof.
  unfold Game.run. rewrite <- (rev_involutive inputs).
  induction (List.rev inputs) as [|i l IH]; simpl; [now left|].
  rewrite fold_left_app. simpl.
  set (st := fold_left (Game.step staticSprites SPRITE_SIZE) (List.rev l) initial) in *.
  destruct i as [f|]; simpl.
  - unfold Game.tick. destruct (truthy (activeMenu st)); [exact IH|]. simpl.
    destruct (overlapping (x (advance f (position st)))
                          (y (advance f (position st)))) as [|a l'] eqn:E.
    + now rewrite checkCollision_none.
    + destruct (exists_last (l := a :: l')) as (others & hit & Hl);
        [discriminate|].
      rewrite Hl in E. right. exists hit. split.
      * apply (overlapping_member (x (advance f (position st)))
                                  (y (advance f (position st)))).
        rewrite E. apply in_or_app. right. now left.
      * now apply (checkCollision_last _ _ _ others).
  - unfold Game.dismiss. destruct (render st); [now left | exact IH].
Qed.

(** A reached state that is paused shows the battle screen of a sprite. *)
Lemma paused_shows_battle (inputs : list Input) :
  running (run inputs initial) = false ->
  exists enemy, render (run inputs initial) = BattleScreen enemy.
Proof.
  intros Hp. apply negb_false_iff in Hp.
  destruct (activeMenu_of_sprite inputs) as [Hn | (s & Hin & Hs)].
  - rewrite Hn in Hp. discriminate.
  - unfold Game.render, Game.activeSprite. rewrite Hp, Hs.
    destruct (find (fun s0 => (Sprite.id s0 =? Sprite.id s)%string)
                   staticSprites) as [e|] eqn:Ef.
    + now exists e.
    + apply (find_none _ _ Ef) in Hin. rewrite String.eqb_refl in Hin.
      discriminate.
Qed.

End GameClaims.

Section GameExamples.
Import JsString Game.
Local Open Scope Z_scope.

(** C10.  Dismissing the battle screen of [enemy] moves each coordinate by
    exactly 10, down when the coordinate is below the enemy's and up
    otherwise (also when equal), clears [activeMenu], and clamps nothing;
    every reached state that is paused shows such a battle screen; and a
    reached state exists whose position lies in the viewport and whose
    position after the dismissal does not. *)
Theorem nudge_ten_unclamped :
  (forall staticSprites st enemy,
     render staticSprites st = BattleScreen enemy ->
     let p := position st in
     let p' := position (dismiss staticSprites st) in
     (x p < Sprite.x enemy -> x p' = x p - 10)
     /\ (Sprite.x enemy <= x p -> x p' = x p + 10)
     /\ (y p < Sprite.y enemy -> y p' = y p - 10)
     /\ (Sprite.y enemy <= y p -> y p' = y p + 10)
     /\ activeMenu (dismiss staticSprites st) = None)
  /\ (forall staticSprites SPRITE_SIZE inputs,
        running (run staticSprites SPRITE_SIZE inputs initial) = false ->
        exists enemy,
          render staticSprites (run staticSprites SPRITE_SIZE inputs initial)
          = BattleScreen enemy)
  /\ (exists staticSprites SPRITE_SIZE f inputs enemy,
        let st := run staticSprites SPRITE_SIZE inputs initial in
        render staticSprites st = BattleScreen enemy
        /\ inBounds SPRITE_SIZE f (position st)
        /\ ~ inBounds SPRITE_SIZE f (position (dismiss staticSprites st))).
Proof.
  split; [|split].
  - intros staticSprites st enemy Hr. simpl.
    rewrite (dismiss_battle _ _ _ Hr). unfold onClose. simpl.
    repeat split; intros H.
    + apply Z.ltb_lt in H. now rewrite H.
    + apply Z.ltb_ge in H. now rewrite H.
    + apply Z.ltb_lt in H. now rewrite H.
    + apply Z.ltb_ge in H. now rewrite H.
  - intros staticSprites SPRITE_SIZE inputs. apply paused_shows_battle.
  - exists squares, 50, (frame [] 260 600), (rightThenDown 260 600 41 21),
      (sprite "enemy1" 200 150 "blue").
    split; [reflexivity|]. split.
    + unfold inBounds. vm_compute. repeat split; discriminate.
    + unfold inBounds. vm_compute. intros [[_ H] _]. now apply H.
Qed.

Lemma nudge_ten_unclamped_witness :
  render squares (run squares 50 (rightThenDown 260 600 41 21) initial)
  = BattleScreen (sprite "enemy1" 200 150 "blue")
  /\ position (run squares 50 (rightThenDown 260 600 41 21) initial)
     = {| x := 205; y := 105 |}
  /\ x (position (dismiss squares
                    (run squares 50 (rightThenDown 260 600 41 21) initial)))
     = 205 + 10.
Proof.
  assert (H : render squares
                (run squares 50 (rightThenDown 260 600 41 21) initial)
              = BattleScreen (sprite "enemy1" 200 150 "blue"))
    by reflexivity.
  split; [exact H|]. split; [reflexivity|].
  destruct (proj1 nudge_ten_unclamped squares _ _ H) as (_ & Hx & _).
  apply Hx. vm_compute. discriminate.
Defined.

(** C2, as stated, fails: with two sprites less than a footprint apart,
    the frame that brings the player to (205, 105) overlaps both, and the
    recorded trigger is the second one, not the first. *)
Lemma collision_records_not_first :
  running (run crowded 50 (rightThenDown 1024 768 41 20) initial) = true
  /\ advance 50 (frame ["ArrowDown"] 1024 768)
       (position (run crowded 50 (rightThenDown 1024 768 41 20) initial))
     = {| x := 205; y := 105 |}
  /\ overlapping crowded 50 205 105
     = [sprite "enemy1" 200 150 "blue"; sprite "enemy2" 230 150 "green"]
  /\ activeMenu (tick crowded 50 (frame ["ArrowDown"] 1024 768)
                   (run crowded 50 (rightThenDown 1024 768 41 20) initial))
     = Some "enemy2"%string
  /\ activeMenu (tick crowded 50 (frame ["ArrowDown"] 1024 768)
                   (run crowded 50 (rightThenDown 1024 768 41 20) initial))
     <> option_map Sprite.id (hd_error (overlapping crowded 50 205 105)).
Proof.
  vm_compute. repeat split; discriminate.
Qed.

Lemma collision_records_last_overlapping_witness :
  running (run crowded 50 (rightThenDown 1024 768 41 20) initial) = true
  /\ activeMenu (tick crowded 50 (frame ["ArrowDown"] 1024 768)
                   (run crowded 50 (rightThenDown 1024 768 41 20) initial))
     = Some "enemy2"%string.
Proof.
  assert (H : running (run crowded 50 (rightThenDown 1024 768 41 20) initial)
              = true) by reflexivity.
  split; [exact H|].
  exact (proj1 (collision_records_last_overlapping crowded 50
                  (frame ["ArrowDown"] 1024 768) _
                  [sprite "enemy1" 200 150 "blue"]
                  (sprite "enemy2" 230 150 "green") H eq_refl)).
Defined.

Lemma collision_commits_position_witness :
  running (run squares 50 (rightThenDown 1024 768 41 20) initial) = true
  /\ position (tick squares 50 (frame ["ArrowDown"] 1024 768)
                 (run squares 50 (rightThenDown 1024 768 41 20) initial))
     = advance 50 (frame ["ArrowDown"] 1024 768)
         (position (run squares 50 (rightThenDown 1024 768 41 20) initial))
  /\ overlaps 50 205 105 (sprite "enemy1" 200 150 "blue") = true.
Proof.
  assert (H : running (run squares 50 (rightThenDown 1024 768 41 20) initial)
              = true) by reflexivity.
  split; [exact H|].
  destruct (collision_commits_position squares 50
              (frame ["ArrowDown"] 1024 768) _ []
              (sprite "enemy1" 200 150 "blue") H eq_refl)
    as (Hpos & _ & _ & Hov & _).
  split; [exact Hpos | exact Hov].
Defined.

Lemma tick_position_in_bounds_witness :
  50 <= 260 /\ 50 <= 600
  /\ running (run squares 50 (rightThenDown 260 600 60 0) initial) = true
  /\ inBounds 50 (frame ["ArrowRight"] 260 600)
       (position (tick squares 50 (frame ["ArrowRight"] 260 600)
                    (run squares 50 (rightThenDown 260 600 60 0) initial))).
Proof.
  assert (Hw : 50 <= innerWidth (frame ["ArrowRight"] 260 600))
    by (simpl; lia).
  assert (Hh : 50 <= innerHeight (frame ["ArrowRight"] 260 600))
    by (simpl; lia).
  assert (Hr : running (run squares 50 (rightThenDown 260 600 60 0) initial)
               = true) by reflexivity.
  split; [exact Hw|]. split; [exact Hh|]. split; [exact Hr|].
  exact (tick_position_in_bounds squares 50 _ initial _ Hw Hh Hr).
Defined.

(** Sixty frames to the right in a viewport 260 wide stop at 210. *)
Example sustained_right_stops_at_edge :
  position (run squares 50 (rightThenDown 260 600 60 0) initial)
  = {| x := 210; y := 0 |}.
Proof. reflexivity. Qed.

(** The viewport has to hold a footprint: in one 30 wide, the clamp leaves
    the player at 0, right of [innerWidth - SPRITE_SIZE]. *)
Example clamp_in_tiny_viewport :
  advance 50 (frame [] 30 600) {| x := 0; y := 0 |} = {| x := 0; y := 0 |}.
Proof. reflexivity. Qed.

Lemma overlap_test_exact_witness :
  overlaps 50 150 150 (sprite "enemy1" 200 150 "blue") = false
  /\ overlaps 50 151 101 (sprite "enemy1" 200 150 "blue") = true.
Proof.
  split.
  - apply (proj1 (proj2 (overlap_test_exact 50 150 150
                           (sprite "enemy1" 200 150 "blue")))).
    left. reflexivity.
  - apply (proj1 (proj2 (proj2 (overlap_test_exact 50 151 101
                                  (sprite "enemy1" 200 150 "blue"))))).
    split; reflexivity.
Defined.

Lemma dismiss_without_trigger_witness :
  activeMenu initial = None
  /\ dismiss squares initial = initial
  /\ running (dismiss squares initial) = true.
Proof.
  split; [reflexivity|].
  exact (dismiss_without_trigger squares initial eq_refl).
Defined.

(** A sprite with an empty id never pauses the loop: [activeMenu] becomes
    the empty string, which is falsy. *)
Example empty_id_does_not_pause :
  running (tick [sprite "" 0 0 "blue"] 50 (frame [] 1024 768) initial) = true.
Proof. reflexivity. Qed.

End GameExamples.

(** ** Further properties of the keyword matcher *)

Section MatcherExtras.
Import JsString Matcher.

Variable backgrounds : list BackgroundImage.
Variable defaultBackground : BackgroundImage.

Local Notation keywordMatch := (Matcher.keywordMatch backgrounds defaultBackground).

Lemma wordPoints_values tagLower word :
  wordPoints tagLower word = 0
  \/ (3 <= wordPoints tagLower word /\ wordPoints tagLower word <= 10).
Proof.
  unfold wordPoints.
  destruct (word =? tagLower)%string; [right; lia|].
  destruct ((3 <? String.length word) && includes tagLower word);
    [right; lia|].
  destruct ((3 <? String.length tagLower) && includes word tagLower);
    [right; lia | now left].
Qed.

Lemma list_sum_scaled (f : string -> nat) (l : list string) (lo hi : nat) :
  (forall a, f a = 0 \/ (lo <= f a /\ f a <= hi)) ->
  (list_sum (map f l) = 0 \/ lo <= list_sum (map f l))
  /\ list_sum (map f l) <= hi * List.length l.
Proof.
  intros H. induction l as [|a l [IH1 IH2]]; simpl; [lia|].
  destruct (H a) as [Ha|Ha]; lia.
Qed.

Lemma phrasePoints_values inputLower tagLower :
  phrasePoints inputLower tagLower = 0 \/ phrasePoints inputLower tagLower = 5.
Proof.
  unfold phrasePoints.
  destruct (includes inputLower tagLower && (3 <? String.length tagLower));
    [now right | now left].
Qed.

Lemma tagPoints_values inputLower words tag :
  tagPoints inputLower words tag = 0
  \/ (3 <= tagPoints inputLower words tag
      /\ tagPoints inputLower words tag <= 10 * List.length words + 5).
Proof.
  unfold tagPoints.
  destruct (list_sum_scaled (wordPoints (toLowerCase tag)) words 3 10
              (wordPoints_values (toLowerCase tag))) as [H1 H2].
  destruct (phrasePoints_values inputLower (toLowerCase tag)) as [-> | ->];
    lia.
Qed.

Lemma splitGo_length_lower b s :
  List.length (splitGo b (toLowerCase s)) = List.length (splitGo b s).
Proof. rewrite splitGo_toLowerCase. apply length_map. Qed.

(** X1.  Matching ignores letter case, in the input and in the tags: the
    lower-cased input gets the same scores and the same record, and a
    record scores the same with its tags lower-cased. *)
Theorem matching_ignores_case (userInput : string) (bg : BackgroundImage) :
  score (toLowerCase userInput) bg = score userInput bg
  /\ keywordMatch (toLowerCase userInput) = keywordMatch userInput
  /\ score userInput
       {| id := id bg; filename := filename bg;
          tags := map toLowerCase (tags bg) |}
     = score userInput bg.
Proof.
  split; [|split].
  - unfold score. now rewrite toLowerCase_idem.
  - unfold Matcher.keywordMatch. now rewrite toLowerCase_idem.
  - unfold score. rewrite !scoreOf_sum. simpl. rewrite map_map.
    f_equal. apply map_ext. intros tag. unfold tagPoints.
    now rewrite toLowerCase_idem.
Qed.

(** X2.  The score of a record is bounded: at most 10 per input word plus
    5, for each of its tags. *)
Theorem score_bounded (userInput : string) (bg : BackgroundImage) :
  score userInput bg
  <= List.length (tags bg) * (10 * List.length (splitWs userInput) + 5).
Proof.
  unfold score. rewrite scoreOf_sum.
  set (il := toLowerCase userInput).
  assert (Hlen : List.length (splitWs il) = List.length (splitWs userInput))
    by apply splitGo_length_lower.
  rewrite <- Hlen.
  destruct (list_sum_scaled (tagPoints il (splitWs il)) (tags bg) 3
              (10 * List.length (splitWs il) + 5)) as [_ H].
  - intros tag. apply tagPoints_values.
  - lia.
Qed.

(** X3.  A record other than the default is returned only from the catalog
    and only with a score of at least 3; so a record without tags, and a
    record on which the input scores nothing, is never preferred to the
    default. *)
Theorem chosen_record_has_signal (userInput : string) :
  keywordMatch userInput = defaultBackground
  \/ (In (keywordMatch userInput) backgrounds
      /\ 3 <= score userInput (keywordMatch userInput)
      /\ tags (keywordMatch userInput) <> []).
Proof.
  destruct (keywordMatch_choice backgrounds defaultBackground userInput)
    as [[Hd _] | (l1 & bg & l2 & Hl & Hk & Hpos & _)]; [now left|].
  right. rewrite Hk. split; [|split].
  - rewrite Hl. apply in_or_app. right. now left.
  - unfold score in *. rewrite scoreOf_sum in *.
    set (il := toLowerCase userInput) in *.
    destruct (list_sum_scaled (tagPoints il (splitWs il)) (tags bg) 3
                (10 * List.length (splitWs il) + 5)) as [[H|H] _]; try lia.
    intros tag. apply tagPoints_values.
  - intros Hnil. unfold score, scoreOf in Hpos. rewrite Hnil in Hpos.
    simpl in Hpos. lia.
Qed.

End MatcherExtras.

(** ** Further properties of the resolver *)

Section TrimFacts.
Import JsString.

Lemma isBlank_app a b : isBlank (a ++ b) = isBlank a && isBlank b.
Proof.
  induction a as [|c r IH]; simpl; [reflexivity|].
  now rewrite IH, andb_assoc.
Qed.

Lemma isBlank_rev s : isBlank (JsString.rev s) = isBlank s.
Proof.
  induction s as [|c r IH]; simpl; [reflexivity|].
  rewrite isBlank_app, IH. simpl. rewrite andb_true_r. apply andb_comm.
Qed.

Lemma rev_empty s : JsString.rev s = "" -> s = "".
Proof.
  destruct s as [|c r]; simpl; [reflexivity|].
  destruct (JsString.rev r); discriminate.
Qed.

Lemma trimStart_head s :
  trimStart s = ""
  \/ exists c r, trimStart s = String c r /\ isWhiteSpace c = false.
Proof.
  induction s as [|c r IH]; simpl; [now left|].
  destruct (isWhiteSpace c) eqn:E; [exact IH|].
  right. now exists c, r.
Qed.

Lemma trimStart_empty_blank s : trimStart s = "" -> isBlank s = true.
Proof.
  induction s as [|c r IH]; simpl; [reflexivity|].
  destruct (isWhiteSpace c); [exact IH | discriminate].
Qed.

Lemma isBlank_trimStart s : isBlank (trimStart s) = isBlank s.
Proof.
  induction s as [|c r IH]; simpl; [reflexivity|].
  destruct (isWhiteSpace c) eqn:E; simpl; [exact IH | now rewrite E].
Qed.

Lemma trim_empty_blank s : trim s = "" -> isBlank s = true.
Proof.
  unfold trim. intros H. apply rev_empty, trimStart_empty_blank in H.
  now rewrite isBlank_rev, isBlank_trimStart in H.
Qed.

(** The test [!userInput || userInput.trim() === ''] holds exactly on the
    inputs made of white space only. *)
Lemma blank_test s :
  (s =? "")%string || (trim s =? "")%string = isBlank s.
Proof.
  destruct (isBlank s) eqn:E.
  - rewrite (trim_blank s E). simpl. apply orb_true_r.
  - apply orb_false_iff. split.
    + destruct s; [discriminate | reflexivity].
    + apply String.eqb_neq. intros H. apply trim_empty_blank in H. congruence.
Qed.

End TrimFacts.

Section ResolverExtras.
Import JsString Matcher.

Variable backgrounds : list BackgroundImage.
Variable defaultBackground : BackgroundImage.
Variable OPENAI_API_KEY : option string.

Local Notation keywordMatch := (Matcher.keywordMatch backgrounds defaultBackground).
Local Notation matchBackground :=
  (Matcher.matchBackground backgrounds defaultBackground OPENAI_API_KEY).
Local Notation askService := (Matcher.askService backgrounds defaultBackground).
Local Notation findById := (Matcher.findById backgrounds).

Lemma bind_fst {A B} (m : M A) (f : A -> M B) :
  fst (bind m f)
  = (fst m ++ match snd m with inl _ => [] | inr a => fst (f a) end)%list.
Proof.
  destruct m as [t [e|a]]; simpl; [now rewrite app_nil_r|].
  now destruct (f a).
Qed.

Lemma matchedIdOf_silent (data : JSON) : fst (matchedIdOf data) = [].
Proof.
  unfold matchedIdOf. rewrite bind_fst.
  destruct data; simpl; try reflexivity;
    match goal with
    | |- context [member ?v "0"] => destruct v as [[]|]; simpl; try reflexivity
    end;
    match goal with
    | |- context [optTrim ?v] => destruct v as [[]|]; reflexivity
    end.
Qed.

(** The [try] block sends one request, whatever comes back. *)
Lemma askService_trace (net : exn + Response) (userInput : string) :
  fst (askService net userInput) = [Fetch endpoint].
Proof.
  unfold Matcher.askService, fetch, await. rewrite bind_fst. cbn [fst snd].
  destruct net as [e|r]; [reflexivity|].
  destruct (ok r); cbn [negb]; [|reflexivity].
  rewrite bind_fst. cbn [fst snd].
  destruct (json r) as [e|data]; [reflexivity|].
  rewrite bind_fst, matchedIdOf_silent.
  destruct (snd (matchedIdOf data)) as [e|i]; [reflexivity|].
  now destruct (findById i).
Qed.

Lemma tryCatch_fst (m : M BackgroundImage) (a : BackgroundImage) :
  fst (tryCatch m (fun _ => ret a)) = fst m.
Proof. destruct m as [t [e|b]]; simpl; [apply app_nil_r | reflexivity]. Qed.

Lemma find_by_key {A} (key : A -> string) (l : list A) (a : A) :
  NoDup (map key l) -> In a l ->
  find (fun b => (key b =? key a)%string) l = Some a.
Proof.
  induction l as [|b l IH]; simpl; [contradiction|].
  intros Hnd Hin. inversion Hnd as [|k ks Hnotin Hnd']; subst.
  destruct (key b =? key a)%string eqn:E.
  - apply String.eqb_eq in E. destruct Hin as [->|Hin]; [reflexivity|].
    exfalso. apply Hnotin. rewrite E. now apply in_map.
  - destruct Hin as [->|Hin]; [now rewrite String.eqb_refl in E|].
    now apply IH.
Qed.

Lemma matchBackground_resolves (net : exn + Response) (userInput : string) :
  exists bg,
    snd (matchBackground net userInput) = Resolved bg
    /\ (bg = defaultBackground \/ In bg backgrounds).
Proof.
  unfold Matcher.matchBackground. rewrite settle_snd.
  unfold matchBackgroundBody.
  destruct ((userInput =? "")%string || (trim userInput =? "")%string).
  { exists defaultBackground. split; [reflexivity | now left]. }
  destruct (negb (truthy OPENAI_API_KEY)).
  { exists (keywordMatch userInput).
    split; [reflexivity | apply keywordMatch_in_catalog]. }
  rewrite tryCatch_fallback, askService_result.
  eexists. split; [reflexivity|].
  destruct net as [e|r]; [apply keywordMatch_in_catalog|].
  destruct (ok r); [|apply keywordMatch_in_catalog].
  destruct (json r) as [e|data]; [apply keywordMatch_in_catalog|].
  destruct (snd (matchedIdOf data)) as [e|i]; [apply keywordMatch_in_catalog|].
  destruct (findById i) as [m|] eqn:Ef; [|apply keywordMatch_in_catalog].
  right. now apply (findById_in backgrounds i).
Qed.

(** X4.  [matchBackground] sends exactly one request when a key is
    configured and the input is not blank, and none otherwise, whatever the
    network answers; without a key it resolves to the default on a blank
    input and to the result of [keywordMatch] on any other. *)
Theorem requests_sent (net : exn + Response) (userInput : string) :
  fst (matchBackground net userInput)
  = (if isBlank userInput || negb (truthy OPENAI_API_KEY)
     then [] else [Fetch endpoint])
  /\ (truthy OPENAI_API_KEY = false ->
      snd (matchBackground net userInput)
      = Resolved (if isBlank userInput then defaultBackground
                  else keywordMatch userInput)).
Proof.
  unfold Matcher.matchBackground. rewrite settle_fst, settle_snd.
  unfold matchBackgroundBody. rewrite blank_test.
  destruct (isBlank userInput); simpl; [split; reflexivity|].
  destruct (truthy OPENAI_API_KEY); simpl.
  - rewrite tryCatch_fst, askService_trace. split; [reflexivity|discriminate].
  - split; reflexivity.
Qed.

(** X5.  With a key, a non-blank input and a 2xx answer of the usual shape
    whose content, trimmed, is the id of a catalog record, the promise
    resolves to that record (ids being unique) after one request. *)
Theorem known_id_is_returned (status : nat) (content userInput : string)
    (bg : BackgroundImage) :
  isBlank userInput = false ->
  truthy OPENAI_API_KEY = true ->
  200 <= status <= 299 ->
  NoDup (map id backgrounds) ->
  In bg backgrounds ->
  trim content = id bg ->
  matchBackground
    (inr {| Matcher.status := status; json := inr (completion content) |})
    userInput
  = ([Fetch endpoint], Resolved bg).
Proof.
  intros Hblank Hkey [Hlo Hhi] Hnd Hin Hid.
  unfold Matcher.matchBackground, matchBackgroundBody.
  rewrite blank_test, Hblank, Hkey. cbn [orb negb].
  unfold Matcher.askService, fetch, await, ok. cbn [bind Matcher.status].
  apply Nat.leb_le in Hlo, Hhi. rewrite Hlo, Hhi. cbn [andb negb json].
  change (matchedIdOf (completion content))
    with (@ret (option string) (Some (trim content))).
  cbn [bind ret]. unfold Matcher.findById.
  rewrite Hid, (find_by_key id backgrounds bg Hnd Hin).
  reflexivity.
Qed.

End ResolverExtras.

Section LoaderExtras.
Import JsString Matcher.

Variable backgrounds : list BackgroundImage.
Variable defaultBackground : BackgroundImage.
Variable OPENAI_API_KEY : option string.

Local Notation mount :=
  (Loader.mount backgrounds defaultBackground OPENAI_API_KEY).

(** X6.  The mount effect of MainGame always ends with [isLoadingBg] false.
    On a non-empty answer the background ends up set, to the default record
    or a record of the catalog (to the default, with no request, when the
    answer is blank), and the style carries an image; on a missing or empty
    answer nothing is requested and no image is set. *)
Theorem mount_outcome (net : exn + Response) (answer : option string) :
  Loader.isLoadingBg (snd (mount net answer Loader.initial)) = false
  /\ (truthy answer = true ->
      exists bg,
        Loader.background (snd (mount net answer Loader.initial)) = Some bg
        /\ (bg = defaultBackground \/ In bg backgrounds)
        /\ Loader.backgroundImage (snd (mount net answer Loader.initial))
           <> None)
  /\ (forall text, answer = Some text -> text <> "" -> isBlank text = true ->
      mount net answer Loader.initial
      = ([], {| Loader.background := Some defaultBackground;
                Loader.isLoadingBg := false |}))
  /\ (truthy answer = false ->
      mount net answer Loader.initial = ([], Loader.initial)
      /\ Loader.backgroundImage (snd (mount net answer Loader.initial))
         = None).
Proof.
  unfold Loader.mount.
  destruct answer as [text|]; simpl;
    [|repeat split; try discriminate; congruence].
  destruct (text =? "")%string eqn:E; simpl.
  - split; [reflexivity|]. split; [discriminate|]. split.
    + intros t [= <-] Hne. apply String.eqb_neq in Hne. congruence.
    + intros _. split; reflexivity.
  - destruct (matchBackground_resolves backgrounds defaultBackground
                OPENAI_API_KEY net text) as (bg & Hres & Hin).
    destruct (Matcher.matchBackground backgrounds defaultBackground
                OPENAI_API_KEY net text) as [trace r] eqn:Em.
    simpl in Hres. subst r. simpl.
    split; [reflexivity|]. split; [|split].
    + intros _. exists bg. unfold Loader.backgroundImage. simpl.
      repeat split; [assumption | discriminate].
    + intros t [= <-] _ Hblank.
      unfold Matcher.matchBackground, matchBackgroundBody in Em.
      rewrite blank_test, Hblank in Em. simpl in Em.
      now inversion Em.
    + discriminate.
Qed.

End LoaderExtras.

Section PromptExtras.
Import JsString Matcher Prompt.

Lemma prefix_app p s q : prefix p s = true -> prefix p (s ++ q) = true.
Proof.
  revert s; induction p as [|c r IH]; intros s.
  - intros _. destruct s; simpl; [destruct q|]; reflexivity.
  - destruct s as [|d s]; [discriminate|]. simpl.
    destruct (ascii_dec c d); [apply IH | discriminate].
Qed.

Lemma includes_app_l s q sub :
  includes s sub = true -> includes (s ++ q) sub = true.
Proof.
  induction s as [|c r IH]; simpl.
  - rewrite orb_false_r. intros H.
    destruct sub; [|discriminate]. now destruct q.
  - intros H. apply orb_prop in H as [H|H].
    + apply (prefix_app sub (String c r) q) in H. simpl in H.
      now rewrite H.
    + rewrite (IH H). apply orb_true_r.
Qed.

Lemma includes_app_r p s sub :
  includes s sub = true -> includes (p ++ s) sub = true.
Proof.
  intros H. induction p as [|c r IH]; simpl; [assumption|].
  rewrite IH. apply orb_true_r.
Qed.

Lemma join_includes sep items a :
  In a items -> includes (join sep items) a = true.
Proof.
  induction items as [|b rest IH]; [contradiction|].
  intros Hin. simpl. destruct rest as [|c rest'].
  - destruct Hin as [->|[]]. apply includes_refl.
  - destruct Hin as [->|Hin].
    + apply includes_app_l, includes_refl.
    + apply includes_app_r, includes_app_r. now apply IH.
Qed.

(** X7.  The list of scenes sent with the request names every record of the
    catalog: its line is part of the listing, and the line shows the
    record's id and each of its tags. *)
Theorem listing_names_every_record (backgrounds : list BackgroundImage)
    (bg : BackgroundImage) :
  In bg backgrounds ->
  includes (sceneListing backgrounds) (sceneLine bg) = true
  /\ includes (sceneLine bg) (id bg) = true
  /\ (forall tag, In tag (tags bg) -> includes (sceneLine bg) tag = true).
Proof.
  intros Hin. split; [|split].
  - unfold sceneListing. apply join_includes. now apply in_map.
  - unfold sceneLine. apply includes_app_r, includes_app_l, includes_refl.
  - intros tag Htag. unfold sceneLine.
    do 5 apply includes_app_r. apply includes_app_l.
    now apply join_includes.
Qed.

Lemma includes_char_cons (c d : ascii) (r : string) :
  includes (String d r) (String c "") = (c =? d)%char || includes r (String c "").
Proof.
  simpl. destruct (ascii_dec c d) as [->|Hne].
  - rewrite Ascii.eqb_refl. now destruct r.
  - apply Ascii.eqb_neq in Hne. now rewrite Hne.
Qed.

Lemma drop_without_char c n s :
  includes s (String c "") = false -> includes (drop n s) (String c "") = false.
Proof.
  revert s; induction n as [|n IH]; intros s; [trivial|].
  destruct s as [|d r]; [trivial|].
  rewrite includes_char_cons. intros H. apply orb_false_iff in H as [_ H].
  simpl. now apply IH.
Qed.

Lemma removeFirst_without_char c pat s :
  includes s (String c "") = false ->
  includes (removeFirst pat s) (String c "") = false.
Proof.
  induction s as [|d r IH]; intros H.
  - cbn [removeFirst].
    destruct (prefix pat ""); [now apply drop_without_char | exact H].
  - cbn [removeFirst]. destruct (prefix pat (String d r)).
    + now apply drop_without_char.
    + rewrite includes_char_cons in *.
      apply orb_false_iff in H as [H1 H2].
      now rewrite H1, IH.
Qed.

Lemma replaceUnderscores_clean s :
  includes (replaceUnderscores s) "_" = false.
Proof.
  induction s as [|c r IH]; [reflexivity|].
  cbn [replaceUnderscores]. rewrite includes_char_cons, IH, orb_false_r.
  destruct (c =? "_")%char eqn:E; [reflexivity|].
  now rewrite Ascii.eqb_sym.
Qed.

Lemma drop_all s : drop (String.length s) s = "".
Proof. induction s as [|c r IH]; simpl; auto. Qed.

Lemma removeFirst_suffix pat base :
  includes base (String "." "") = false ->
  (exists r, pat = String "." r) ->
  removeFirst pat (base ++ pat) = base.
Proof.
  intros Hdot [r ->]. induction base as [|c b IH].
  - change ("" ++ String "." r) with (String "." r).
    cbn [removeFirst]. rewrite prefix_refl. apply drop_all.
  - rewrite includes_char_cons in Hdot.
    apply orb_false_iff in Hdot as [Hc Hb].
    change (removeFirst (String "." r) (String c b ++ String "." r))
      with (if prefix (String "." r) (String c (b ++ String "." r))
            then drop (String.length (String "." r))
                      (String c (b ++ String "." r))
            else String c (removeFirst (String "." r) (b ++ String "." r))).
    change (prefix (String "." r) (String c (b ++ String "." r)))
      with (if ascii_dec "." c then prefix r (b ++ String "." r) else false).
    destruct (ascii_dec "." c) as [<-|_].
    + rewrite Ascii.eqb_refl in Hc. discriminate.
    + now rewrite IH.
Qed.

(** X8.  The scene name shown in the listing never contains an underscore;
    for a file name [base.png] whose base has no dot it is the base with
    every underscore turned into a space. *)
Theorem sceneName_of_png (bg : BackgroundImage) (base : string) :
  includes (sceneName bg) "_" = false
  /\ (filename bg = base ++ ".png" ->
      includes base "." = false ->
      sceneName bg = replaceUnderscores base).
Proof.
  split.
  - unfold sceneName. apply removeFirst_without_char, replaceUnderscores_clean.
  - intros Hf Hdot. unfold sceneName. rewrite Hf.
    assert (Happ : forall a b,
               replaceUnderscores (a ++ b)
               = replaceUnderscores a ++ replaceUnderscores b).
    { induction a as [|c r IH]; intros b; simpl; [reflexivity|].
      now rewrite IH. }
    rewrite Happ. change (replaceUnderscores ".png") with ".png".
    apply removeFirst_suffix; [| now exists "png"].
    clear Hf. induction base as [|c r IH]; [reflexivity|].
    rewrite includes_char_cons in Hdot.
    apply orb_false_iff in Hdot as [Hc Hr].
    cbn [replaceUnderscores]. rewrite includes_char_cons, (IH Hr), orb_false_r.
    destruct (c =? "_")%char; [reflexivity | assumption].
Qed.

(** [getBackgroundPath] tells files apart, and the image of the
    MainGame style is [url(...)] around that path. *)
Theorem backgroundPath_faithful (a b : BackgroundImage) (st : Loader.State) :
  (getBackgroundPath a = getBackgroundPath b -> filename a = filename b)
  /\ Loader.backgroundImage st
     = option_map (fun bg => "url(" ++ getBackgroundPath bg ++ ")")
         (Loader.background st).
Proof.
  split.
  - unfold getBackgroundPath. simpl. intros H. now inversion H.
  - unfold Loader.backgroundImage, getBackgroundPath.
    now destruct (Loader.background st).
Qed.

End PromptExtras.

(** ** Further properties of the motion and collision loop *)

Section GameExtras.
Import JsString Game.
Local Open Scope Z_scope.

Variable staticSprites : list Sprite.t.
Variable SPRITE_SIZE : Z.

Local Notation overlaps := (Game.overlaps SPRITE_SIZE).
Local Notation overlapping := (Game.overlapping staticSprites SPRITE_SIZE).
Local Notation checkCollision := (Game.checkCollision staticSprites SPRITE_SIZE).
Local Notation advance := (Game.advance SPRITE_SIZE).
Local Notation tick := (Game.tick staticSprites SPRITE_SIZE).
Local Notation dismiss := (Game.dismiss staticSprites).
Local Notation render := (Game.render staticSprites).
Local Notation activeSprite := (Game.activeSprite staticSprites).
Local Notation run := (Game.run staticSprites SPRITE_SIZE).
Local Notation inBounds := (Game.inBounds SPRITE_SIZE).

Lemma advance_step (f : Frame) (p : Position) :
  inBounds f p ->
  -5 <= x (advance f p) - x p <= 5 /\ -5 <= y (advance f p) - y p <= 5.
Proof.
  unfold Game.inBounds, Game.advance, speed. intros [Hx Hy]. simpl.
  destruct (has (keysPressed f) "ArrowUp"), (has (keysPressed f) "ArrowDown"),
    (has (keysPressed f) "ArrowLeft"), (has (keysPressed f) "ArrowRight");
    lia.
Qed.

(** X9.  A frame moves a player that is inside the viewport by at most 5
    on each axis; an axis with both or neither of its arrows held does not
    move; one arrow alone moves by 5, stopped at the edge; the two axes
    move independently (so 5 on both when moving diagonally). *)
Theorem frame_displacement (f : Frame) (p : Position) :
  inBounds f p ->
  (-5 <= x (advance f p) - x p <= 5 /\ -5 <= y (advance f p) - y p <= 5)
  /\ (has (keysPressed f) "ArrowLeft" = has (keysPressed f) "ArrowRight" ->
      x (advance f p) = x p)
  /\ (has (keysPressed f) "ArrowUp" = has (keysPressed f) "ArrowDown" ->
      y (advance f p) = y p)
  /\ (has (keysPressed f) "ArrowRight" = true ->
      has (keysPressed f) "ArrowLeft" = false ->
      x (advance f p) = Z.min (x p + 5) (innerWidth f - SPRITE_SIZE))
  /\ (has (keysPressed f) "ArrowLeft" = true ->
      has (keysPressed f) "ArrowRight" = false ->
      x (advance f p) = Z.max (x p - 5) 0)
  /\ (has (keysPressed f) "ArrowDown" = true ->
      has (keysPressed f) "ArrowUp" = false ->
      y (advance f p) = Z.min (y p + 5) (innerHeight f - SPRITE_SIZE))
  /\ (has (keysPressed f) "ArrowUp" = true ->
      has (keysPressed f) "ArrowDown" = false ->
      y (advance f p) = Z.max (y p - 5) 0).
Proof.
  intros Hin. split; [now apply advance_step|].
  unfold Game.inBounds in Hin. destruct Hin as [Hx Hy].
  unfold Game.advance, speed. simpl.
  destruct (has (keysPressed f) "ArrowUp"), (has (keysPressed f) "ArrowDown"),
    (has (keysPressed f) "ArrowLeft"), (has (keysPressed f) "ArrowRight");
    repeat split; intros; try discriminate; lia.
Qed.

Lemma filter_nothing {A} (P : A -> bool) (l : list A) :
  (forall a, In a l -> P a = false) -> filter P l = [].
Proof.
  induction l as [|a l IH]; simpl; [reflexivity|].
  intros H. rewrite (H a (or_introl eq_refl)). apply IH.
  intros b Hb. apply H. now right.
Qed.

Lemma clear_position xp yp menu :
  (forall s, In s staticSprites -> overlaps xp yp s = false) ->
  checkCollision xp yp menu = menu.
Proof.
  intros H. apply checkCollision_none. unfold Game.overlapping.
  now apply filter_nothing.
Qed.

Lemma run_snoc (inputs : list Input) (i : Input) (st : State) :
  run (inputs ++ [i]) st
  = Game.step staticSprites SPRITE_SIZE (run inputs st) i.
Proof. unfold Game.run. now rewrite fold_left_app. Qed.

(** X10.  In the game loop, holding the right arrow for [n] frames from a
    running state inside the viewport puts the player at [x + 5 n], stopped
    at [innerWidth - SPRITE_SIZE], as long as the positions passed on the
    way are clear of every sprite; likewise the left arrow gives [x - 5 n],
    stopped at 0.  [y] and [activeMenu] are unchanged.  (A sprite on the
    way pauses the loop instead.) *)
Theorem clear_run_stops_at_edge (w h : Z) (st : State) (n : nat) :
  running st = true ->
  inBounds (frame [] w h) (position st) ->
  ((forall k s, (1 <= k <= n)%nat -> In s staticSprites ->
      overlaps (Z.min (x (position st) + 5 * Z.of_nat k) (w - SPRITE_SIZE))
               (y (position st)) s = false) ->
   run (repeat (Tick (frame ["ArrowRight"%string] w h)) n) st
   = {| position :=
          {| x := Z.min (x (position st) + 5 * Z.of_nat n) (w - SPRITE_SIZE);
             y := y (position st) |};
        activeMenu := activeMenu st |})
  /\ ((forall k s, (1 <= k <= n)%nat -> In s staticSprites ->
         overlaps (Z.max (x (position st) - 5 * Z.of_nat k) 0)
                  (y (position st)) s = false) ->
      run (repeat (Tick (frame ["ArrowLeft"%string] w h)) n) st
      = {| position :=
             {| x := Z.max (x (position st) - 5 * Z.of_nat n) 0;
                y := y (position st) |};
           activeMenu := activeMenu st |}).
Proof.
  intros Hrun [Hx Hy]. simpl in Hx, Hy.
  assert (Hf : truthy (activeMenu st) = false) by (now apply negb_true_iff).
  split; intros Hclear.
  - induction n as [|n IH].
    + destruct st as [[px py] menu]. simpl in *. unfold Game.run. simpl.
      do 2 f_equal. lia.
    + cbn [repeat]. rewrite repeat_cons, run_snoc, IH.
      2:{ intros k s Hk. apply Hclear. lia. }
      cbn [Game.step]. unfold Game.tick. cbn [activeMenu]. rewrite Hf.
      unfold Game.gameLoop. cbn [position activeMenu].
      assert (Hadv : advance (frame ["ArrowRight"%string] w h)
                       {| x := Z.min (x (position st) + 5 * Z.of_nat n)
                                     (w - SPRITE_SIZE);
                          y := y (position st) |}
                     = {| x := Z.min (x (position st) + 5 * Z.of_nat (S n))
                                     (w - SPRITE_SIZE);
                          y := y (position st) |}).
      { unfold Game.advance, speed.
        cbn -[Z.add Z.sub Z.mul Z.min Z.max Z.of_nat].
        rewrite Nat2Z.inj_succ. f_equal; lia. }
      rewrite Hadv. cbn [x y]. rewrite clear_position; [reflexivity|].
      intros s Hs. apply Hclear; [lia | assumption].
  - induction n as [|n IH].
    + destruct st as [[px py] menu]. simpl in *. unfold Game.run. simpl.
      do 2 f_equal. lia.
    + cbn [repeat]. rewrite repeat_cons, run_snoc, IH.
      2:{ intros k s Hk. apply Hclear. lia. }
      cbn [Game.step]. unfold Game.tick. cbn [activeMenu]. rewrite Hf.
      unfold Game.gameLoop. cbn [position activeMenu].
      assert (Hadv : advance (frame ["ArrowLeft"%string] w h)
                       {| x := Z.max (x (position st) - 5 * Z.of_nat n) 0;
                          y := y (position st) |}
                     = {| x := Z.max (x (position st) - 5 * Z.of_nat (S n)) 0;
                          y := y (position st) |}).
      { unfold Game.advance, speed.
        cbn -[Z.add Z.sub Z.mul Z.min Z.max Z.of_nat].
        rewrite Nat2Z.inj_succ. f_equal; lia. }
      rewrite Hadv. cbn [x y]. rewrite clear_position; [reflexivity|].
      intros s Hs. apply Hclear; [lia | assumption].
Qed.

(** X11.  A running frame whose new footprint overlaps no sprite only moves
    the player: [activeMenu] is left as it was and the loop keeps running. *)
Theorem free_frame_only_moves (f : Frame) (st : State) :
  running st = true ->
  (forall s, In s staticSprites ->
     overlaps (x (advance f (position st))) (y (advance f (position st))) s
     = false) ->
  tick f st
  = {| position := advance f (position st); activeMenu := activeMenu st |}
  /\ running (tick f st) = true.
Proof.
  intros Hrun Hfree.
  assert (Hnone : overlapping (x (advance f (position st)))
                              (y (advance f (position st))) = []).
  { unfold Game.overlapping. now apply filter_nothing. }
  assert (Heq : tick f st
                = {| position := advance f (position st);
                     activeMenu := activeMenu st |}).
  { unfold Game.tick. unfold running in Hrun. apply negb_true_iff in Hrun.
    rewrite Hrun. unfold Game.gameLoop.
    now rewrite (checkCollision_none staticSprites SPRITE_SIZE _ _ _ Hnone). }
  split; [exact Heq|]. now rewrite Heq.
Qed.

(** X12.  In every state the game reaches, [activeMenu] is null or the id
    of a sprite that [staticSprites.find] finds: a recorded trigger always
    has its enemy. *)
Theorem trigger_names_a_sprite (inputs : list Input) :
  activeMenu (run inputs initial) = None
  \/ exists enemy,
       activeSprite (run inputs initial) = Some enemy
       /\ In enemy staticSprites
       /\ activeMenu (run inputs initial) = Some (Sprite.id enemy).
Proof.
  destruct (activeMenu_of_sprite staticSprites SPRITE_SIZE inputs)
    as [Hn | (s & Hin & Hs)]; [now left|].
  right. unfold Game.activeSprite. rewrite Hs.
  destruct (find (fun s0 => (Sprite.id s0 =? Sprite.id s)%string)
                 staticSprites) as [e|] eqn:Ef.
  - exists e. apply find_some in Ef as [He Heq].
    apply String.eqb_eq in Heq. rewrite Heq. auto.
  - apply (find_none _ _ Ef) in Hin. rewrite String.eqb_refl in Hin.
    discriminate.
Qed.

(** X13.  Dismissing twice is dismissing once, in every state. *)
Theorem dismiss_idempotent (st : State) :
  dismiss (dismiss st) = dismiss st.
Proof.
  destruct (render st) as [enemy|] eqn:E.
  - rewrite (dismiss_battle staticSprites st enemy E). reflexivity.
  - assert (H : dismiss st = st) by (unfold Game.dismiss; now rewrite E).
    now rewrite !H.
Qed.

(** X14.  From every state the game reaches, a dismissal leaves the loop
    running: the game cannot stay paused once the overlay is closed. *)
Theorem dismiss_resumes_loop (inputs : list Input) :
  running (dismiss (run inputs initial)) = true.
Proof.
  destruct (running (run inputs initial)) eqn:E.
  - assert (Hf : truthy (activeMenu (run inputs initial)) = false)
      by (now apply negb_true_iff).
    assert (Hd : dismiss (run inputs initial) = run inputs initial)
      by (unfold Game.dismiss, Game.render; now rewrite Hf).
    now rewrite Hd.
  - destruct (paused_shows_battle staticSprites SPRITE_SIZE inputs E)
      as [enemy Hr].
    unfold Game.dismiss. now rewrite Hr.
Qed.

(** X15.  The collision test is symmetric in the two footprints, and with a
    size that is not positive nothing ever collides. *)
Theorem overlap_symmetric (xp yp : Z) (s : Sprite.t) :
  overlaps xp yp s
  = overlaps (Sprite.x s) (Sprite.y s)
      {| Sprite.id := Sprite.id s; Sprite.x := xp; Sprite.y := yp;
         Sprite.color := Sprite.color s |}
  /\ (SPRITE_SIZE <= 0 -> overlaps xp yp s = false)
  /\ (overlaps (Sprite.x s) (Sprite.y s) s = true <-> 0 < SPRITE_SIZE).
Proof.
  split; [|split].
  - unfold Game.overlaps. simpl.
    rewrite !Z.gtb_ltb.
    destruct (xp <? Sprite.x s + SPRITE_SIZE),
      (Sprite.x s <? xp + SPRITE_SIZE),
      (yp <? Sprite.y s + SPRITE_SIZE),
      (Sprite.y s <? yp + SPRITE_SIZE); reflexivity.
  - intros H. apply not_true_is_false.
    rewrite (overlaps_iff SPRITE_SIZE). lia.
  - rewrite (overlaps_iff SPRITE_SIZE). lia.
Qed.

Lemma nudge_gap (x0 y0 x1 y1 sx sy : Z) :
  5 < SPRITE_SIZE ->
  -5 <= x1 - x0 <= 5 -> -5 <= y1 - y0 <= 5 ->
  ~ (x0 < sx + SPRITE_SIZE /\ sx < x0 + SPRITE_SIZE
     /\ y0 < sy + SPRITE_SIZE /\ sy < y0 + SPRITE_SIZE) ->
  x1 < sx + SPRITE_SIZE /\ sx < x1 + SPRITE_SIZE
  /\ y1 < sy + SPRITE_SIZE /\ sy < y1 + SPRITE_SIZE ->
  (if x1 <? sx then x1 - 10 else x1 + 10) + SPRITE_SIZE + 5 <= sx
  \/ sx + SPRITE_SIZE + 5 <= (if x1 <? sx then x1 - 10 else x1 + 10)
  \/ (if y1 <? sy then y1 - 10 else y1 + 10) + SPRITE_SIZE + 5 <= sy
  \/ sy + SPRITE_SIZE + 5 <= (if y1 <? sy then y1 - 10 else y1 + 10).
Proof.
  intros Hs Hx Hy Hfree Hhit.
  destruct (Z.ltb_spec x1 sx), (Z.ltb_spec y1 sy); lia.
Qed.

Lemma same_id_same_sprite (a b : Sprite.t) :
  NoDup (map Sprite.id staticSprites) ->
  In a staticSprites -> In b staticSprites ->
  Sprite.id a = Sprite.id b -> a = b.
Proof.
  intros Hnd Ha Hb Hid.
  pose proof (find_by_key Sprite.id staticSprites a Hnd Ha) as Fa.
  pose proof (find_by_key Sprite.id staticSprites b Hnd Hb) as Fb.
  rewrite Hid in Fa. congruence.
Qed.

(** The sprite of the battle screen a running frame opens overlaps the new
    position, ids being unique. *)
Lemma shown_enemy_overlaps (f : Frame) (st : State) (enemy : Sprite.t) :
  NoDup (map Sprite.id staticSprites) ->
  running st = true ->
  render (tick f st) = BattleScreen enemy ->
  In enemy staticSprites
  /\ position (tick f st) = advance f (position st)
  /\ overlaps (x (advance f (position st))) (y (advance f (position st)))
       enemy = true.
Proof.
  intros Hnd Hrun Hshow.
  assert (Hf : truthy (activeMenu st) = false) by (now apply negb_true_iff).
  assert (Ht : tick f st = Game.gameLoop staticSprites SPRITE_SIZE f st)
    by (unfold Game.tick; now rewrite Hf).
  rewrite Ht in *. unfold Game.render in Hshow.
  destruct (truthy (activeMenu (Game.gameLoop staticSprites SPRITE_SIZE f st)))
    eqn:Etr; [|discriminate].
  destruct (activeSprite (Game.gameLoop staticSprites SPRITE_SIZE f st))
    as [s|] eqn:Eas; [|discriminate].
  injection Hshow as ->.
  unfold Game.activeSprite in Eas. simpl in Etr, Eas.
  set (p1 := advance f (position st)) in *.
  destruct (overlapping (x p1) (y p1)) as [|a l] eqn:Eov.
  - rewrite (checkCollision_none staticSprites SPRITE_SIZE _ _ _ Eov) in Etr.
    congruence.
  - destruct (exists_last (l := a :: l)) as (others & hit & Hl);
      [discriminate|].
    rewrite Hl in Eov.
    rewrite (checkCollision_last staticSprites SPRITE_SIZE _ _ _ _ _ Eov)
      in Eas.
    assert (Hhit : In hit (overlapping (x p1) (y p1)))
      by (rewrite Eov; apply in_or_app; right; now left).
    apply (overlapping_member staticSprites SPRITE_SIZE) in Hhit
      as [Hin Hov].
    rewrite (find_by_key Sprite.id staticSprites hit Hnd Hin) in Eas.
    injection Eas as <-. repeat split; assumption.
Qed.

(** X16.  The nudge does what its comment says away from the edges.  When
    a running frame brings a player that was inside the viewport and clear
    of a sprite onto it, dismissing the battle screen leaves the player
    clear of that sprite, and so does the next frame, whatever keys are
    held, as long as the nudged position is inside the viewport: that
    sprite is not the trigger again (sprites larger than the step 5, ids
    unique). *)
Theorem nudge_clears_collision (f g : Frame) (st : State)
    (enemy : Sprite.t) :
  5 < SPRITE_SIZE ->
  NoDup (map Sprite.id staticSprites) ->
  running st = true ->
  inBounds f (position st) ->
  overlaps (x (position st)) (y (position st)) enemy = false ->
  render (tick f st) = BattleScreen enemy ->
  overlaps (x (position (dismiss (tick f st))))
           (y (position (dismiss (tick f st)))) enemy = false
  /\ (inBounds g (position (dismiss (tick f st))) ->
      overlaps (x (position (tick g (dismiss (tick f st)))))
               (y (position (tick g (dismiss (tick f st))))) enemy = false
      /\ activeMenu (tick g (dismiss (tick f st)))
         <> Some (Sprite.id enemy)).
Proof.
  intros Hsize Hnd Hrun Hin Hfree Hshow.
  destruct (shown_enemy_overlaps f st enemy Hnd Hrun Hshow)
    as (Hen & Hpos & Hov).
  rewrite (dismiss_battle staticSprites _ _ Hshow).
  pose proof (advance_step f (position st) Hin) as [Hdx Hdy].
  apply (overlaps_iff SPRITE_SIZE) in Hov.
  assert (Hfree' : ~ (x (position st) < Sprite.x enemy + SPRITE_SIZE
                      /\ Sprite.x enemy < x (position st) + SPRITE_SIZE
                      /\ y (position st) < Sprite.y enemy + SPRITE_SIZE
                      /\ Sprite.y enemy < y (position st) + SPRITE_SIZE)).
  { intros H. apply (overlaps_iff SPRITE_SIZE) in H. congruence. }
  pose proof (nudge_gap _ _ _ _ _ _ Hsize Hdx Hdy Hfree' Hov) as Hgap.
  unfold onClose. rewrite Hpos. cbn [position x y activeMenu].
  set (p1 := advance f (position st)) in *.
  set (x2 := if x p1 <? Sprite.x enemy then x p1 - 10 else x p1 + 10) in *.
  set (y2 := if y p1 <? Sprite.y enemy then y p1 - 10 else y p1 + 10) in *.
  split.
  - apply not_true_is_false. rewrite (overlaps_iff SPRITE_SIZE). lia.
  - intros Hin2.
    pose proof (advance_step g {| x := x2; y := y2 |} Hin2) as [Hex Hey].
    cbn [x y] in Hex, Hey.
    unfold Game.tick. cbn [activeMenu truthy position].
    unfold Game.gameLoop. cbn [position activeMenu].
    set (p3 := advance g {| x := x2; y := y2 |}) in *.
    assert (Hclear : overlaps (x p3) (y p3) enemy = false).
    { apply not_true_is_false. rewrite (overlaps_iff SPRITE_SIZE). lia. }
    split; [exact Hclear|].
    destruct (overlapping (x p3) (y p3)) as [|a l] eqn:Eov.
    + rewrite (checkCollision_none staticSprites SPRITE_SIZE _ _ _ Eov).
      discriminate.
    + destruct (exists_last (l := a :: l)) as (others & hit & Hl);
        [discriminate|].
      rewrite Hl in Eov.
      rewrite (checkCollision_last staticSprites SPRITE_SIZE _ _ _ _ _ Eov).
      assert (Hhit : In hit (overlapping (x p3) (y p3)))
        by (rewrite Eov; apply in_or_app; right; now left).
      apply (overlapping_member staticSprites SPRITE_SIZE) in Hhit
        as [Hhin Hhov].
      intros [= Hid].
      rewrite (same_id_same_sprite hit enemy Hnd Hhin Hen Hid) in Hhov.
      congruence.
Qed.

End GameExtras.

(** ** The choosing game *)

Section ChoosingGameExtras.
Import JsString Game ChoosingGame.
Local Open Scope Z_scope.

Lemma hits_iff (xp yp : Z) (square : Position) :
  hits xp yp square = true
  <-> xp < x square + 50 /\ x square < xp + 50
      /\ yp < y square + 50 /\ y square < yp + 50.
Proof.
  unfold hits, cubeSize.
  rewrite !andb_true_iff, !Z.ltb_lt, !Z.gtb_lt. tauto.
Qed.

(** The four squares are far enough apart: a footprint meets at most one
    of them, so a frame logs at most one line. *)
Lemma one_square_at_most (xp yp : Z) :
  (List.length (ChoosingGame.checkCollision xp yp) <= 1)%nat
  /\ Forall (fun line => line = "hello"%string)
       (ChoosingGame.checkCollision xp yp).
Proof.
  unfold ChoosingGame.checkCollision, blueSquares. cbn [fold_left].
  destruct (hits xp yp {| x := 200; y := 150 |}) eqn:E1,
    (hits xp yp {| x := 400; y := 150 |}) eqn:E2,
    (hits xp yp {| x := 200; y := 350 |}) eqn:E3,
    (hits xp yp {| x := 400; y := 350 |}) eqn:E4;
    try (split; [simpl; lia | repeat constructor]);
    exfalso;
    repeat match goal with
           | H : hits _ _ _ = true |- _ => apply hits_iff in H; simpl in H
           | H : hits _ _ _ = false |- _ => clear H
           end; lia.
Qed.

Lemma play_snoc (fs : list Frame) (f : Frame) (start : Position) :
  play (fs ++ [f]) start
  = (fst (ChoosingGame.gameLoop f (fst (play fs start))),
     (snd (play fs start)
      ++ snd (ChoosingGame.gameLoop f (fst (play fs start))))%list).
Proof.
  unfold play. rewrite fold_left_app. reflexivity.
Qed.

(** X17.  In the choosing game the squares never stop the player: the
    position after any frames is the one the held keys alone give; every
    frame logs at most one "hello", so at most as many lines as frames;
    and after a frame the player is inside the viewport when that is at
    least 50 wide and high. *)
Theorem choosing_game_play (fs : list Frame) (f : Frame) (start : Position) :
  fst (play fs start)
  = fold_left (fun p g => advance cubeSize g p) fs start
  /\ (List.length (snd (play fs start)) <= List.length fs)%nat
  /\ Forall (fun line => line = "hello"%string) (snd (play fs start))
  /\ (50 <= innerWidth f -> 50 <= innerHeight f ->
      inBounds 50 f (fst (play (fs ++ [f]) start))).
Proof.
  assert (H : fst (play fs start)
              = fold_left (fun p g => advance cubeSize g p) fs start
              /\ (List.length (snd (play fs start)) <= List.length fs)%nat
              /\ Forall (fun line => line = "hello"%string)
                   (snd (play fs start))).
  { rewrite <- (rev_involutive fs).
    induction (List.rev fs) as [|g l (IH1 & IH2 & IH3)];
      [repeat split; simpl; auto|].
    simpl List.rev. rewrite play_snoc, fold_left_app.
    unfold ChoosingGame.gameLoop. cbn [fst snd fold_left]. rewrite IH1.
    set (p := advance cubeSize g
                (fold_left (fun p g0 => advance cubeSize g0 p)
                   (List.rev l) start)).
    destruct (one_square_at_most (x p) (y p)) as [Hlen Hall].
    split; [reflexivity|]. split.
    - rewrite !length_app. cbn [List.length]. lia.
    - apply Forall_app. now split. }
  destruct H as (H1 & H2 & H3).
  split; [exact H1|]. split; [exact H2|]. split; [exact H3|].
  intros Hw Hh. rewrite play_snoc. cbn [fst].
  unfold ChoosingGame.gameLoop. cbn [fst]. now apply advance_clamped.
Qed.

End ChoosingGameExtras.

(** ** Instances *)

Section ExtraExamples.
Import JsString Matcher Prompt Game.

Lemma sample_ids_unique : NoDup (map Matcher.id sampleBackgrounds).
Proof.
  repeat constructor; simpl; intuition discriminate.
Defined.

Lemma known_id_is_returned_witness :
  isBlank "Toronto" = false
  /\ In bg12 sampleBackgrounds
  /\ trim " bg12 " = Matcher.id bg12
  /\ matchBackground sampleBackgrounds sampleDefault (Some "sk-test")
       (inr {| status := 200; json := inr (completion " bg12 ") |}) "Toronto"
     = ([Fetch endpoint], Resolved bg12).
Proof.
  assert (Hin : In bg12 sampleBackgrounds) by (simpl; tauto).
  split; [reflexivity|]. split; [exact Hin|]. split; [reflexivity|].
  apply (known_id_is_returned sampleBackgrounds sampleDefault (Some "sk-test")
           200 " bg12 " "Toronto" bg12);
    [reflexivity | reflexivity | lia | exact sample_ids_unique | exact Hin
    | reflexivity].
Defined.

Lemma requests_sent_witness :
  truthy None = false
  /\ snd (matchBackground sampleBackgrounds sampleDefault None
            (inl NetworkError) "outer space")
     = Resolved (keywordMatch sampleBackgrounds sampleDefault "outer space").
Proof.
  split; [reflexivity|].
  exact (proj2 (requests_sent sampleBackgrounds sampleDefault None
                  (inl NetworkError) "outer space") eq_refl).
Defined.

Lemma mount_outcome_witness :
  truthy (Some "outer space") = true
  /\ exists bg,
       Loader.background
         (snd (Loader.mount sampleBackgrounds sampleDefault None
                 (inl NetworkError) (Some "outer space") Loader.initial))
       = Some bg
       /\ (bg = sampleDefault \/ In bg sampleBackgrounds)
       /\ Loader.backgroundImage
            (snd (Loader.mount sampleBackgrounds sampleDefault None
                    (inl NetworkError) (Some "outer space") Loader.initial))
          <> None.
Proof.
  split; [reflexivity|].
  exact (proj1 (proj2 (mount_outcome sampleBackgrounds sampleDefault None
                         (inl NetworkError) (Some "outer space"))) eq_refl).
Defined.

Lemma listing_names_every_record_witness :
  In bg7 sampleBackgrounds
  /\ includes (sceneListing sampleBackgrounds) (sceneLine bg7) = true
  /\ includes (sceneLine bg7) "nebula" = true.
Proof.
  assert (Hin : In bg7 sampleBackgrounds) by (simpl; tauto).
  split; [exact Hin|].
  destruct (listing_names_every_record sampleBackgrounds bg7 Hin)
    as (H1 & _ & H3).
  split; [exact H1|]. apply H3. simpl. tauto.
Defined.

Example sceneLine_of_bg12 :
  sceneLine bg12 = "- bg12: city night skyline (tags: city, night, skyline)".
Proof. reflexivity. Qed.

(** Only the first [.png] is removed. *)
Example sceneName_keeps_second_suffix :
  sceneName {| Matcher.id := "bg0"; filename := "a_b.png.png"; tags := [] |}
  = "a b.png".
Proof. reflexivity. Qed.

Lemma sceneName_of_png_witness :
  filename bg12 = "city_night_skyline" ++ ".png"
  /\ includes "city_night_skyline" "." = false
  /\ sceneName bg12 = replaceUnderscores "city_night_skyline".
Proof.
  split; [reflexivity|]. split; [reflexivity|].
  exact (proj2 (sceneName_of_png bg12 "city_night_skyline") eq_refl eq_refl).
Defined.

Local Open Scope Z_scope.

Lemma frame_displacement_witness :
  inBounds 50 (frame ["ArrowRight"; "ArrowDown"]%string 1024 768)
    {| x := 100; y := 100 |}
  /\ x (advance 50 (frame ["ArrowRight"; "ArrowDown"]%string 1024 768)
          {| x := 100; y := 100 |})
     = Z.min (100 + 5) (1024 - 50).
Proof.
  assert (Hin : inBounds 50 (frame ["ArrowRight"; "ArrowDown"]%string 1024 768)
                  {| x := 100; y := 100 |})
    by (unfold inBounds; simpl; lia).
  split; [exact Hin|].
  destruct (frame_displacement 50 _ _ Hin) as (_ & _ & _ & Hr & _).
  apply Hr; reflexivity.
Defined.

Lemma clear_run_stops_at_edge_witness :
  running initial = true
  /\ inBounds 50 (frame [] 260 600) (position initial)
  /\ run squares 50 (repeat (Tick (frame ["ArrowRight"%string] 260 600)) 60)
       initial
     = {| position :=
            {| x := Z.min (x (position initial) + 5 * Z.of_nat 60) (260 - 50);
               y := y (position initial) |};
          activeMenu := activeMenu initial |}.
Proof.
  assert (Hin : inBounds 50 (frame [] 260 600) (position initial))
    by (unfold inBounds; simpl; lia).
  split; [reflexivity|]. split; [exact Hin|].
  apply (proj1 (clear_run_stops_at_edge squares 50 260 600 initial 60
                  eq_refl Hin)).
  intros k s Hk Hs. apply not_true_is_false.
  rewrite (overlaps_iff 50). simpl in Hs.
  destruct Hs as [<-|[<-|[<-|[<-|[]]]]]; simpl; lia.
Defined.

(** With a sprite on the way the loop pauses on it instead: from
    (0, 150), sixty frames to the right end at (155, 150) on the first
    square. *)
Example blocked_run_pauses :
  run squares 50 (repeat (Tick (frame ["ArrowRight"%string] 1024 768)) 60)
    {| position := {| x := 0; y := 150 |}; activeMenu := None |}
  = {| position := {| x := 155; y := 150 |};
       activeMenu := Some "enemy1"%string |}.
Proof. reflexivity. Qed.

Lemma free_frame_only_moves_witness :
  running initial = true
  /\ tick squares 50 (frame ["ArrowRight"%string] 1024 768) initial
     = {| position :=
            advance 50 (frame ["ArrowRight"%string] 1024 768)
              (position initial);
          activeMenu := activeMenu initial |}.
Proof.
  split; [reflexivity|].
  apply (free_frame_only_moves squares 50); [reflexivity|].
  intros s [<-|[<-|[<-|[<-|[]]]]]; reflexivity.
Defined.

Lemma squares_ids_unique : NoDup (map Sprite.id squares).
Proof.
  repeat constructor; simpl; intuition discriminate.
Defined.

Lemma nudge_clears_collision_witness :
  running (run squares 50 (rightThenDown 1024 768 41 20) initial) = true
  /\ render squares
       (tick squares 50 (frame ["ArrowDown"%string] 1024 768)
          (run squares 50 (rightThenDown 1024 768 41 20) initial))
     = BattleScreen (sprite "enemy1" 200 150 "blue")
  /\ overlaps 50
       (x (position
             (dismiss squares
                (tick squares 50 (frame ["ArrowDown"%string] 1024 768)
                   (run squares 50 (rightThenDown 1024 768 41 20) initial)))))
       (y (position
             (dismiss squares
                (tick squares 50 (frame ["ArrowDown"%string] 1024 768)
                   (run squares 50 (rightThenDown 1024 768 41 20) initial)))))
       (sprite "enemy1" 200 150 "blue")
     = false.
Proof.
  split; [reflexivity|]. split; [reflexivity|].
  assert (Hsize : 5 < 50) by lia.
  assert (Hin : inBounds 50 (frame ["ArrowDown"%string] 1024 768)
                  (position
                     (run squares 50 (rightThenDown 1024 768 41 20) initial)))
    by (unfold inBounds; vm_compute; repeat split; discriminate).
  exact (proj1 (nudge_clears_collision squares 50
                  (frame ["ArrowDown"%string] 1024 768)
                  (frame ["ArrowDown"%string] 1024 768)
                  (run squares 50 (rightThenDown 1024 768 41 20) initial)
                  (sprite "enemy1" 200 150 "blue")
                  Hsize squares_ids_unique eq_refl Hin eq_refl eq_refl)).
Defined.

(** At the left edge the nudge does not help: the dismissed player is
    outside the viewport and the next frame clamps it back onto the
    sprite. *)
Example nudge_undone_at_edge :
  activeMenu
    (tick [sprite "enemy1" 30 0 "blue"] 50 (frame [] 1024 768)
       (dismiss [sprite "enemy1" 30 0 "blue"]
          (tick [sprite "enemy1" 30 0 "blue"] 50 (frame [] 1024 768)
             initial)))
  = Some "enemy1"%string.
Proof. reflexivity. Qed.

Lemma overlap_symmetric_witness :
  overlaps 0 10 10 (sprite "enemy1" 10 10 "blue") = false.
Proof.
  apply (proj1 (proj2 (overlap_symmetric 0 10 10
                         (sprite "enemy1" 10 10 "blue")))).
  lia.
Defined.

Lemma choosing_game_play_witness :
  inBounds 50 (frame ["ArrowRight"%string] 1024 768)
    (fst (ChoosingGame.play ([] ++ [frame ["ArrowRight"%string] 1024 768])
            {| x := 0; y := 0 |})).
Proof.
  apply (proj2 (proj2 (proj2 (choosing_game_play []
                                (frame ["ArrowRight"%string] 1024 768)
                                {| x := 0; y := 0 |}))));
    simpl; lia.
Defined.

End ExtraExamples.
